(** * AnthroDocs: the documentation pipeline of [temp.py]

    A shallow embedding of [temp.py] and the properties of its pipeline
    [process_documentation]: readability scoring, prompt construction,
    per-URL failure isolation, the aggregate error metric and persistence.

    Conventions of the embedding:
    - a Python [str] is a list of Unicode code points ([N]);
    - a Python [float] produced by the scorer is an exact rational, or
      [NaN] (what [np.mean] returns on an empty list);
    - the network, the completion endpoint and the file system are
      oracles indexed by a clock that counts the external calls made so
      far, so that every pattern of failures can be expressed;
    - effectful functions live in a state-and-exception monad whose state
      persists when an exception is raised, as Python's mutable lists do. *)

From Stdlib Require Import String Ascii DecimalString DecimalNat.
From Stdlib Require Import List NArith ZArith QArith Bool Arith Lia.
Import ListNotations.

Close Scope Q_scope.

Set Implicit Arguments.

(** ** Python strings *)

Module PyStr.

Definition char := N.
Definition str := list char.

(** An ASCII literal of the source, as a sequence of code points. *)
Definition lit (s : string) : str := map N_of_ascii (list_ascii_of_string s).

Definition period : char := 46%N.
Definition space : char := 32%N.
Definition newline : char := 10%N.

(** [str.isspace] on one character: the code points Python treats as
    whitespace in [str.strip()] and [str.split()]. *)
Definition isspace (c : char) : bool :=
  ((9 <=? c) && (c <=? 13) || (28 <=? c) && (c <=? 32)
   || (c =? 133) || (c =? 160) || (c =? 5760)
   || (8192 <=? c) && (c <=? 8202)
   || (c =? 8232) || (c =? 8233) || (c =? 8239) || (c =? 8287)
   || (c =? 12288))%N.

(** Truth value of a string: non-empty. *)
Definition truthy (s : str) : bool :=
  match s with [] => false | _ :: _ => true end.

Fixpoint lstrip (s : str) : str :=
  match s with
  | [] => []
  | c :: s' => if isspace c then lstrip s' else s
  end.

Definition rstrip (s : str) : str := rev (lstrip (rev s)).

(** [s.strip()] *)
Definition strip (s : str) : str := rstrip (lstrip s).

(** [s.split(sep)] for a one-character separator: the pieces between the
    occurrences of [sep]; [n] separators give [n + 1] pieces, empty ones
    included. [cur] is the piece being read, reversed. *)
Fixpoint split_from (sep : char) (cur : str) (s : str) : list str :=
  match s with
  | [] => [rev cur]
  | c :: s' =>
      if (c =? sep)%N then rev cur :: split_from sep [] s'
      else split_from sep (c :: cur) s'
  end.

Definition split (sep : char) (s : str) : list str := split_from sep [] s.

(** [s.split()] without argument: the maximal runs of non-whitespace
    characters; no empty piece is produced. [cur] is the word being read,
    reversed. *)
Fixpoint split_ws_from (cur : str) (s : str) : list str :=
  match s with
  | [] => if truthy cur then [rev cur] else []
  | c :: s' =>
      if isspace c
      then (if truthy cur then rev cur :: split_ws_from [] s'
            else split_ws_from [] s')
      else split_ws_from (c :: cur) s'
  end.

Definition split_ws (s : str) : list str := split_ws_from [] s.

(** [sep.join(l)] *)
Fixpoint join (sep : str) (l : list str) : str :=
  match l with
  | [] => []
  | [w] => w
  | w :: l' => w ++ sep ++ join sep l'
  end.

(** [str(n)] for a non-negative integer. *)
Definition of_nat (n : nat) : str :=
  lit (NilEmpty.string_of_uint (Nat.to_uint n)).

End PyStr.

Import PyStr.

(** ** Scores *)

(** A readability score: [np.float64], here an exact rational or NaN. *)
Inductive score : Type :=
| NaN
| Fin (q : Q).

(** [np.mean] on a list of Python integers (here, lengths): NaN on the
    empty list, otherwise the sum over the count. *)
Definition np_mean (l : list nat) : score :=
  match l with
  | [] => NaN
  | _ :: _ => Fin (Qmake (Z.of_nat (list_sum l)) (Pos.of_nat (length l)))
  end.

(** [[s.strip() for s in content.split(".") if s.strip()]] *)
Definition sentences (content : str) : list str :=
  map strip (filter (fun s => truthy (strip s)) (split period content)).

(** [compute_readability] *)
Definition compute_readability (content : str) : score :=
  np_mean (map (fun sentence => length (split_ws sentence)) (sentences content)).

(** ** Exceptions, log records and the state of a run *)

(** The exceptions of a run; all of them derive from Python's
    [Exception]. *)
Inductive exn : Type :=
| RequestException (detail : str)
| APIException (detail : str)
| OSError (detail : str)
| ValueError (detail : str).

(** One line written through [logging], by the call that writes it. *)
Inductive record : Type :=
| FetchedContent (url : str)
| FetchFailed (url : str) (e : exn)
| AnthropicError (e : exn)
| SavedContent (filename : str)
| SaveFailed (filename : str) (e : exn)
| ProcessingError (url : str) (e : exn)
| OriginalScores (scores : list score)
| ImprovedScores (scores : list score)
| MeanSquaredError (mse : Q).

(** What a run can observe and change: the number of external calls made
    so far, the log, the files written, and the three accumulator lists
    of [process_documentation]. *)
Record state : Type := mkState {
  clock : nat;
  log : list record;
  disk : list (str * str);
  original_scores : list score;
  improved_scores : list score;
  improved_docs : list str
}.

Definition initial : state := mkState 0 [] [] [] [] [].

(** ** The monad of effectful code: state that survives exceptions *)

Definition M (A : Type) : Type := state -> state * (exn + A).

Definition ret {A} (a : A) : M A := fun st => (st, inr a).

Definition raise {A} (e : exn) : M A := fun st => (st, inl e).

Definition bind {A B} (m : M A) (k : A -> M B) : M B :=
  fun st =>
    match m st with
    | (st', inr a) => k a st'
    | (st', inl e) => (st', inl e)
    end.

(** [try: m except Exception as e: h e] *)
Definition try_except {A} (m : M A) (h : exn -> M A) : M A :=
  fun st =>
    match m st with
    | (st', inr a) => (st', inr a)
    | (st', inl e) => h e st'
    end.

Notation "x <- m ;; k" := (bind m (fun x => k))
  (at level 61, m at next level, right associativity).
Notation "m ;; k" := (bind m (fun _ => k))
  (at level 61, right associativity).

(** [for x in l: body x] *)
Fixpoint for_each {A} (l : list A) (body : A -> M unit) : M unit :=
  match l with
  | [] => ret tt
  | x :: l' => body x ;; for_each l' body
  end.

Definition get {A} (field : state -> A) : M A := fun st => (st, inr (field st)).

Definition tick : M nat :=
  fun st =>
    (mkState (S (clock st)) (log st) (disk st)
       (original_scores st) (improved_scores st) (improved_docs st),
     inr (clock st)).

Definition logging (r : record) : M unit :=
  fun st =>
    (mkState (clock st) (log st ++ [r]) (disk st)
       (original_scores st) (improved_scores st) (improved_docs st),
     inr tt).

Definition written (filename content : str) : M unit :=
  fun st =>
    (mkState (clock st) (log st) (disk st ++ [(filename, content)])
       (original_scores st) (improved_scores st) (improved_docs st),
     inr tt).

Definition new_accumulators : M unit :=
  fun st => (mkState (clock st) (log st) (disk st) [] [] [], inr tt).

Definition original_scores_append (x : score) : M unit :=
  fun st =>
    (mkState (clock st) (log st) (disk st)
       (original_scores st ++ [x]) (improved_scores st) (improved_docs st),
     inr tt).

Definition improved_scores_append (x : score) : M unit :=
  fun st =>
    (mkState (clock st) (log st) (disk st)
       (original_scores st) (improved_scores st ++ [x]) (improved_docs st),
     inr tt).

Definition improved_docs_append (d : str) : M unit :=
  fun st =>
    (mkState (clock st) (log st) (disk st)
       (original_scores st) (improved_scores st) (improved_docs st ++ [d]),
     inr tt).

(** ** Constants and prompts *)

Definition ANTHROPIC_MODEL : str := lit "claude-2".
Definition MAX_CONTENT_LENGTH : nat := 5000.

Definition nl : str := [newline].
Definition indent : str := lit "    ".

(** The text of the prompt of [analyze_documentation] before and after the
    interpolated [content[:MAX_CONTENT_LENGTH]]. *)
Definition analyze_head : str :=
  nl ++ indent
  ++ lit "Analyze the following documentation and suggest improvements:"
  ++ nl ++ indent ++ lit "```markdown" ++ nl ++ indent.

Definition analyze_tail : str :=
  nl ++ indent ++ lit "```" ++ nl ++ indent
  ++ lit "Provide recommendations for improved clarity, structure, and examples."
  ++ nl ++ indent.

Definition analyze_prompt (content : str) : str :=
  analyze_head ++ firstn MAX_CONTENT_LENGTH content ++ analyze_tail.

(** The same for [suggest_visuals]. *)
Definition visuals_head : str :=
  nl ++ indent
  ++ lit "Based on the following documentation, suggest diagrams, charts, or visuals:"
  ++ nl ++ indent ++ lit "```markdown" ++ nl ++ indent.

Definition visuals_tail : str :=
  nl ++ indent ++ lit "```" ++ nl ++ indent.

Definition visuals_prompt (content : str) : str :=
  visuals_head ++ firstn MAX_CONTENT_LENGTH content ++ visuals_tail.

(** The f-string of [enhanced_doc]. *)
Definition enhanced_doc (improved_text visuals : str) : str :=
  lit "# Improved Documentation" ++ nl ++ nl ++ improved_text ++ nl ++ nl
  ++ lit "# Visual Suggestions" ++ nl ++ nl ++ visuals.

(** [f"improved_doc_{k}.md"] *)
Definition doc_filename (k : nat) : str :=
  lit "improved_doc_" ++ of_nat k ++ lit ".md".

(** [enumerate(l)], counting from [i]. *)
Fixpoint enumerate_from {A} (i : nat) (l : list A) : list (nat * A) :=
  match l with
  | [] => []
  | x :: l' => (i, x) :: enumerate_from (S i) l'
  end.

Definition enumerate {A} (l : list A) : list (nat * A) := enumerate_from 0 l.

(** ** [sklearn.metrics.mean_squared_error]

    The library function, after its documentation: both inputs are
    validated (same number of samples, at least one sample, no NaN), a
    [ValueError] being raised otherwise; the result is
    [np.average((y_true - y_pred) ** 2)]. *)

Definition np_average (l : list Q) : Q :=
  (fold_right Qplus 0 l / inject_Z (Z.of_nat (length l)))%Q.

Fixpoint finite_values (l : list score) : option (list Q) :=
  match l with
  | [] => Some []
  | NaN :: _ => None
  | Fin q :: l' =>
      match finite_values l' with
      | Some qs => Some (q :: qs)
      | None => None
      end
  end.

Definition check_array (l : list score) : exn + list Q :=
  match l with
  | [] => inl (ValueError (lit "Found array with 0 sample(s)"))
  | _ :: _ =>
      match finite_values l with
      | None => inl (ValueError (lit "Input contains NaN."))
      | Some qs => inr qs
      end
  end.

Definition mean_squared_error (y_true y_pred : list score) : exn + Q :=
  if negb (length y_true =? length y_pred)
  then inl (ValueError
              (lit "Found input variables with inconsistent numbers of samples"))
  else
    match check_array y_true with
    | inl e => inl e
    | inr a =>
        match check_array y_pred with
        | inl e => inl e
        | inr b =>
            inr (np_average
                   (map (fun xy => (fst xy - snd xy) ^ 2)%Q (combine a b)))
        end
    end.

(** ** The pipeline *)

(** [response.get("completion", [])] with the empty string as default. *)
Definition completion_text (response : option str) : str :=
  match response with
  | Some text => text
  | None => []
  end.

Section Pipeline.

(** [requests.get(url)], [raise_for_status()] and [response.text], at the
    given clock: the body, or the exception raised. *)
Variable http_get : nat -> str -> exn + str.

(** [anthropic_client.completion(prompt, stop, model, max_tokens)] at the
    given clock: the exception raised, or the [completion] field of the
    response when it has one. *)
Variable completion : nat -> str -> list str -> str -> nat -> exn + option str.

(** Opening [filename] for writing and writing [content], at the given
    clock: [None] when it succeeds, else the exception raised. *)
Variable write_file : nat -> str -> str -> option exn.

Definition fetch_content (url : str) : M str :=
  t <- tick ;;
  match http_get t url with
  | inr text => logging (FetchedContent url) ;; ret text
  | inl (RequestException d) =>
      logging (FetchFailed url (RequestException d)) ;;
      raise (RequestException d)
  | inl e => raise e
  end.

Definition anthropic_analysis (prompt : str) (max_tokens : nat) : M str :=
  t <- tick ;;
  match completion t prompt [nl ++ nl] ANTHROPIC_MODEL max_tokens with
  | inr response => ret (completion_text response)
  | inl e => logging (AnthropicError e) ;; raise e
  end.

Definition analyze_documentation (content : str) : M str :=
  anthropic_analysis (analyze_prompt content) 2000.

Definition suggest_visuals (content : str) : M str :=
  anthropic_analysis (visuals_prompt content) 2000.

Definition save_to_file (filename content : str) : M unit :=
  t <- tick ;;
  match write_file t filename content with
  | None => written filename content ;; logging (SavedContent filename)
  | Some e => logging (SaveFailed filename e)
  end.

(** The body of the [for url in urls] loop, with its [try]/[except]. *)
Definition process_url (url : str) : M unit :=
  try_except
    (content <- fetch_content url ;;
     original_scores_append (compute_readability content) ;;
     improved_text <- analyze_documentation content ;;
     visuals <- suggest_visuals content ;;
     improved_docs_append (enhanced_doc improved_text visuals) ;;
     improved_scores_append (compute_readability improved_text))
    (fun e => logging (ProcessingError url e)).

(** The [Save Results] loop. *)
Definition save_results (docs : list str) : M unit :=
  for_each (enumerate docs)
    (fun id => save_to_file (doc_filename (fst id + 1)) (snd id)).

(** The [Compute Error Metrics] block. *)
Definition compute_error_metrics : M unit :=
  originals <- get original_scores ;;
  improved <- get improved_scores ;;
  match mean_squared_error originals improved with
  | inl e => raise e
  | inr mse =>
      logging (OriginalScores originals) ;;
      logging (ImprovedScores improved) ;;
      logging (MeanSquaredError mse)
  end.

Definition process_documentation (urls : list str) : M unit :=
  new_accumulators ;;
  for_each urls process_url ;;
  compute_error_metrics ;;
  docs <- get improved_docs ;;
  save_results docs.

End Pipeline.

(** ** The specification's reading of the scorer and of the metric *)

(** Split at periods, trim, discard the empty results. *)
Definition trimmed_segments (content : str) : list str :=
  filter truthy (map strip (split period content)).

(** The number of whitespace-separated words of a text: the positions
    where a non-whitespace character follows the start of the text or a
    whitespace character. [at_gap] says that the previous position was
    such a start or whitespace. *)
Fixpoint count_words_from (at_gap : bool) (s : str) : nat :=
  match s with
  | [] => 0
  | c :: s' =>
      (if at_gap && negb (isspace c) then 1 else 0)
      + count_words_from (isspace c) s'
  end.

Definition count_words (s : str) : nat := count_words_from true s.

(** The arithmetic mean of a list of counts; undefined on no count. *)
Definition arithmetic_mean (counts : list nat) : score :=
  if length counts =? 0 then NaN
  else Fin (Qmake (Z.of_nat (fold_right Nat.add 0 counts))
              (Pos.of_nat (length counts))).

(** The mean of the element-wise squared differences of two sequences,
    by index. *)
Definition mean_of_squared_differences (a b : list Q) : Q :=
  (fold_right Qplus 0
     (map (fun i => (nth i a 0 - nth i b 0) ^ 2) (seq 0 (length a)))
   / inject_Z (Z.of_nat (length a)))%Q.

(** A word: at least one character, none of them whitespace or a period. *)
Definition is_word (w : str) : Prop :=
  w <> [] /\ forall c, In c w -> isspace c = false /\ c <> period.

(** [needle] occurs in [s] at offset [i]. *)
Definition occurs_at (needle s : str) (i : nat) : Prop :=
  firstn (length needle) (skipn i s) = needle.

Definition is_wordb (w : str) : bool :=
  truthy w && forallb (fun c => negb (isspace c) && negb (c =? period)%N) w.

(** The markdown header line of a section title. *)
Definition header (title : str) : str := lit "# " ++ title.

Definition improved_title : str := lit "Improved Documentation".
Definition visuals_title : str := lit "Visual Suggestions".

(** The text before offset [i] of [s] ends with a blank line. *)
Definition preceded_by_blank_line (s : str) (i : nat) : Prop :=
  exists before, firstn i s = before ++ nl ++ nl.

(** Every occurrence of [header] in [doc] has a blank line before it. *)
Definition blank_line_before_each (header doc : str) : Prop :=
  forall i, occurs_at header doc i -> preceded_by_blank_line doc i.

(** The first [n] characters of [s], one index at a time. *)
Definition first_characters (n : nat) (s : str) : str :=
  map (fun i => nth i s 0%N) (seq 0 n).

(** What the specification lets a prompt embed of [content]. *)
Definition embedded (content : str) : str :=
  if MAX_CONTENT_LENGTH <? length content
  then first_characters MAX_CONTENT_LENGTH content
  else content.

(** The layout with a blank line before each of the two headers: both
    headers and both texts occur in the document, in order, and every
    occurrence of a header has a blank line before it. *)
Definition blank_line_before_headers (doc improved_text visuals : str) : Prop :=
  (exists i1 i2 j1 j2,
      occurs_at (header improved_title) doc i1
      /\ occurs_at improved_text doc i2
      /\ occurs_at (header visuals_title) doc j1
      /\ occurs_at visuals doc j2
      /\ i1 < i2 /\ i2 <= j1 /\ j1 < j2)
  /\ blank_line_before_each (header improved_title) doc
  /\ blank_line_before_each (header visuals_title) doc.

(** Documents and improved scores are aligned: they come, index by
    index, from the same improvement text. *)
Definition aligned (st : state) : Prop :=
  exists texts : list (str * str),
    improved_docs st = map (fun tv => enhanced_doc (fst tv) (snd tv)) texts
    /\ improved_scores st = map (fun tv => compute_readability (fst tv)) texts.

(** The accumulators of a state. *)
Definition accumulators (st : state) : list score * list score * list str :=
  (original_scores st, improved_scores st, improved_docs st).

(** The log records of attempted writes, as (file name, succeeded). *)
Fixpoint write_attempts (l : list record) : list (str * bool) :=
  match l with
  | [] => []
  | SavedContent f :: l' => (f, true) :: write_attempts l'
  | SaveFailed f _ :: l' => (f, false) :: write_attempts l'
  | _ :: l' => write_attempts l'
  end.

(** The aggregate metrics logged. *)
Fixpoint logged_metrics (l : list record) : list Q :=
  match l with
  | [] => []
  | MeanSquaredError m :: l' => m :: logged_metrics l'
  | _ :: l' => logged_metrics l'
  end.

(** ** Further notions used by the properties of the code *)

(** What the save loop asks of the file system, call by call: for each
    enumerated document, the file name, the content, and the answer of
    the file system to this call, the first call being made at clock
    [t]. *)
Fixpoint write_outcomes (write_file : nat -> str -> str -> option exn)
  (t : nat) (l : list (nat * str)) : list (str * str * option exn) :=
  match l with
  | [] => []
  | id :: l' =>
      (doc_filename (fst id + 1), snd id,
       write_file t (doc_filename (fst id + 1)) (snd id))
      :: write_outcomes write_file (S t) l'
  end.

(** The log line of a write, by its outcome. *)
Definition outcome_record (o : str * str * option exn) : record :=
  match o with
  | (filename, _, None) => SavedContent filename
  | (filename, _, Some e) => SaveFailed filename e
  end.

(** The file a write leaves on disk, by its outcome. *)
Definition outcome_file (o : str * str * option exn) : list (str * str) :=
  match o with
  | (filename, content, None) => [(filename, content)]
  | (_, _, Some _) => []
  end.

(** A metric is logged for the two score lists of [st] whenever they
    have the same non-zero length, and it is the mean of their squared
    differences. *)
Definition metric_logged_as_mean (st : state) : Prop :=
  length (original_scores st) = length (improved_scores st) ->
  original_scores st <> [] ->
  exists mse,
    In mse (logged_metrics (log st))
    /\ forall a b,
        finite_values (original_scores st) = Some a ->
        finite_values (improved_scores st) = Some b ->
        mse = mean_of_squared_differences a b.

(** The word counts of the sentences of a text, in order. *)
Definition sentence_lengths (content : str) : list nat :=
  map (fun sentence => length (split_ws sentence)) (sentences content).

(** A character that belongs to no word of any sentence: whitespace or
    a period. *)
Definition is_blank (c : char) : bool := isspace c || (c =? period)%N.

(** The number of URLs the log reports as failed. *)
Fixpoint count_processing_errors (l : list record) : nat :=
  match l with
  | [] => 0
  | ProcessingError _ _ :: l' => S (count_processing_errors l')
  | _ :: l' => count_processing_errors l'
  end.

(** ** Concrete worlds *)

Module Scenario.

Definition url_a : str := lit "https://example.org/a.md".
Definition url_b : str := lit "https://example.org/b.md".
Definition url_c : str := lit "https://example.org/c.md".

Definition page : str := lit "Install the tool. Run it twice a day.".
Definition advice : str := lit "Add an example. Shorten it.".
Definition long_page : str := repeat 97%N (MAX_CONTENT_LENGTH + 3).

(** Every page is served. *)
Definition web_up : nat -> str -> exn + str := fun _ _ => inr page.

(** Every page is served except [url_b]. *)
Definition web_without_b : nat -> str -> exn + str :=
  fun _ url =>
    if list_eq_dec N.eq_dec url url_b
    then inl (RequestException (lit "404 Client Error"))
    else inr page.

(** The completion endpoint answers. *)
Definition api_up : nat -> str -> list str -> str -> nat -> exn + option str :=
  fun _ _ _ _ _ => inr (Some advice).

(** The completion endpoint is unreachable. *)
Definition api_down : nat -> str -> list str -> str -> nat -> exn + option str :=
  fun _ _ _ _ _ => inl (APIException (lit "overloaded")).

(** The completion endpoint answers the calls made before clock [n]. *)
Definition api_up_until (n : nat)
  : nat -> str -> list str -> str -> nat -> exn + option str :=
  fun t _ _ _ _ =>
    if t <? n then inr (Some advice) else inl (APIException (lit "overloaded")).

Definition disk_ok : nat -> str -> str -> option exn := fun _ _ _ => None.

(** Only the write made at clock [n] fails. *)
Definition disk_failing_at (n : nat) : nat -> str -> str -> option exn :=
  fun t _ _ => if t =? n then Some (OSError (lit "No space left on device")) else None.

(** One URL, fetched, while the completion endpoint is unreachable. *)
Definition run_api_down : state * (exn + unit) :=
  process_documentation web_up api_down disk_ok [url_a] initial.

(** Two URLs, both fetched; the endpoint fails from the second URL on. *)
Definition run_api_lost : state * (exn + unit) :=
  process_documentation web_up (api_up_until 4) disk_ok [url_a; url_b] initial.

(** Three URLs, the second of which cannot be fetched. *)
Definition run_without_b : state * (exn + unit) :=
  process_documentation web_without_b api_up disk_ok
    [url_a; url_b; url_c] initial.

(** A page longer than a prompt may embed, and the same page with more
    text at its end. *)
Definition web_long : nat -> str -> exn + str := fun _ _ => inr long_page.

Definition web_longer : nat -> str -> exn + str :=
  fun _ _ => inr (long_page ++ lit " And one more sentence.").

(** No page can be fetched. *)
Definition web_down : nat -> str -> exn + str :=
  fun _ _ => inl (RequestException (lit "Connection refused")).

(** The endpoint answers with responses that have no completion field. *)
Definition api_no_completion
  : nat -> str -> list str -> str -> nat -> exn + option str :=
  fun _ _ _ _ _ => inr None.

Definition disk_full : nat -> str -> str -> option exn :=
  fun _ _ _ => Some (OSError (lit "No space left on device")).

(** One URL, fetched, whose completions have no completion field. *)
Definition run_no_completion : state * (exn + unit) :=
  process_documentation web_up api_no_completion disk_ok [url_a] initial.

End Scenario.

(** * Properties *)

(** ** Strings *)

Example readability_two_sentences :
  compute_readability (lit "Hello big world. Bye now. ") = Fin (5 # 2)%Q.
Proof. reflexivity. Qed.

Example readability_empty : compute_readability (lit " . .. ") = NaN.
Proof. reflexivity. Qed.

Example doc_filename_12 : doc_filename 12 = lit "improved_doc_12.md".
Proof. reflexivity. Qed.

Lemma filter_map_swap (A B : Type) (f : A -> B) (p : B -> bool) (l : list A) :
  filter p (map f l) = map f (filter (fun x => p (f x)) l).
Proof.
  induction l as [|x l IH]; simpl; [reflexivity|].
  destruct (p (f x)); simpl; now rewrite IH.
Qed.

Lemma sentences_trimmed content : sentences content = trimmed_segments content.
Proof. unfold sentences, trimmed_segments. now rewrite filter_map_swap. Qed.

Lemma split_ws_from_count cur s :
  length (split_ws_from cur s)
  = (if truthy cur then 1 else 0) + count_words_from (negb (truthy cur)) s.
Proof.
  revert cur. induction s as [|c s IH]; intros cur; simpl.
  - destruct (truthy cur); reflexivity.
  - destruct (isspace c) eqn:Hc; simpl.
    + rewrite andb_false_r. destruct (truthy cur); simpl; rewrite IH; reflexivity.
    + rewrite IH. simpl. rewrite andb_true_r.
      destruct (truthy cur); simpl; lia.
Qed.

Lemma split_ws_count s : length (split_ws s) = count_words s.
Proof. unfold split_ws, count_words. now rewrite split_ws_from_count. Qed.

Lemma np_mean_arithmetic l : np_mean l = arithmetic_mean l.
Proof.
  unfold arithmetic_mean. destruct l as [|x l]; simpl; [reflexivity|].
  repeat f_equal.
Qed.

(** Splitting a text without the separator gives the text itself. *)
Lemma split_from_absent sep cur s :
  ~ In sep s -> split_from sep cur s = [rev cur ++ s].
Proof.
  revert cur. induction s as [|c s IH]; intros cur Hnot; simpl.
  - now rewrite app_nil_r.
  - destruct (N.eqb_spec c sep) as [->|Hne].
    + exfalso. apply Hnot. now left.
    + rewrite IH by (intros Hin; apply Hnot; now right).
      simpl. now rewrite <- app_assoc.
Qed.

Lemma split_from_app_sep sep cur s t :
  ~ In sep s ->
  split_from sep cur (s ++ sep :: t) = (rev cur ++ s) :: split_from sep [] t.
Proof.
  revert cur. induction s as [|c s IH]; intros cur Hnot; simpl.
  - rewrite N.eqb_refl. now rewrite app_nil_r.
  - destruct (N.eqb_spec c sep) as [->|Hne].
    + exfalso. apply Hnot. now left.
    + rewrite IH by (intros Hin; apply Hnot; now right).
      simpl. now rewrite <- app_assoc.
Qed.

(** [lstrip] removes a prefix made of whitespace only. *)
Lemma lstrip_decompose s :
  exists t, s = t ++ lstrip s /\ forallb isspace t = true.
Proof.
  induction s as [|c s [t [Hs Ht]]]; simpl.
  - now exists [].
  - destruct (isspace c) eqn:Hc.
    + exists (c :: t). simpl. rewrite Hc, Ht. split; [now f_equal | reflexivity].
    + now exists [].
Qed.

Lemma rstrip_decompose s :
  exists t, s = rstrip s ++ t /\ forallb isspace t = true.
Proof.
  unfold rstrip. destruct (lstrip_decompose (rev s)) as [t [Hs Ht]].
  exists (rev t). split.
  - rewrite <- rev_app_distr, <- Hs. now rewrite rev_involutive.
  - rewrite forallb_forall in *. intros c Hc. apply Ht. now apply in_rev.
Qed.

Lemma split_ws_from_spaces cur t :
  forallb isspace t = true ->
  split_ws_from cur t = if truthy cur then [rev cur] else [].
Proof.
  revert cur. induction t as [|c t IH]; intros cur Ht; simpl in *; [reflexivity|].
  apply andb_true_iff in Ht as [Hc Ht]. rewrite Hc.
  destruct (truthy cur); rewrite IH by assumption; reflexivity.
Qed.

Lemma split_ws_from_trailing cur s t :
  forallb isspace t = true -> split_ws_from cur (s ++ t) = split_ws_from cur s.
Proof.
  intros Ht. revert cur. induction s as [|c s IH]; intros cur; simpl.
  - now apply split_ws_from_spaces.
  - now rewrite !IH.
Qed.

Lemma split_ws_leading t s :
  forallb isspace t = true -> split_ws_from [] (t ++ s) = split_ws_from [] s.
Proof.
  induction t as [|c t IH]; intros Ht; simpl in *; [reflexivity|].
  apply andb_true_iff in Ht as [Hc Ht]. rewrite Hc. simpl. now apply IH.
Qed.

(** Trimming does not change the words of a text. *)
Lemma split_ws_strip s : split_ws (strip s) = split_ws s.
Proof.
  unfold split_ws, strip.
  destruct (lstrip_decompose s) as [t1 [H1 Ht1]].
  destruct (rstrip_decompose (lstrip s)) as [t2 [H2 Ht2]].
  rewrite H1 at 2. rewrite split_ws_leading by assumption.
  rewrite H2 at 2. now rewrite split_ws_from_trailing.
Qed.

Lemma lstrip_head s c r : lstrip s = c :: r -> isspace c = false.
Proof.
  induction s as [|d s IH]; simpl; [discriminate|].
  destruct (isspace d) eqn:Hd; [assumption|].
  intros H. injection H as -> _. assumption.
Qed.

Lemma strip_head s c r : strip s = c :: r -> isspace c = false.
Proof.
  unfold strip. intros E.
  destruct (rstrip_decompose (lstrip s)) as [t [H _]].
  rewrite E in H. simpl in H. now apply lstrip_head in H.
Qed.

(** A text trims to nothing exactly when it has no word. *)
Lemma truthy_strip s : truthy (strip s) = negb (length (split_ws s) =? 0).
Proof.
  rewrite <- split_ws_strip. destruct (strip s) as [|c r] eqn:E; [reflexivity|].
  apply strip_head in E. unfold split_ws. simpl. rewrite E.
  rewrite split_ws_from_count. reflexivity.
Qed.

(** The words of words joined by single spaces are these words. *)
Lemma split_ws_from_word cur w s :
  (forall c, In c w -> isspace c = false) ->
  split_ws_from cur (w ++ s) = split_ws_from (rev w ++ cur) s.
Proof.
  revert cur. induction w as [|c w IH]; intros cur Hw; simpl; [reflexivity|].
  rewrite (Hw c) by now left.
  rewrite IH by (intros d Hd; apply Hw; now right).
  now rewrite <- app_assoc.
Qed.

Lemma split_ws_join ws :
  Forall is_word ws -> split_ws (join [space] ws) = ws.
Proof.
  unfold split_ws. induction ws as [|w ws IH]; intros Hws; [reflexivity|].
  inversion Hws as [|? ? [Hne Hw] Hrest]; subst.
  assert (Hsp : forall c, In c w -> isspace c = false) by (intros c Hc; now apply Hw).
  assert (Hrw : truthy (rev w ++ []) = true).
  { destruct w as [|c w]; [contradiction|]. simpl.
    destruct (rev w); reflexivity. }
  destruct ws as [|w' ws].
  - simpl. rewrite <- (app_nil_r w) at 1.
    rewrite split_ws_from_word by assumption. simpl. rewrite Hrw.
    now rewrite app_nil_r, rev_involutive.
  - change (join [space] (w :: w' :: ws))
      with (w ++ [space] ++ join [space] (w' :: ws)).
    rewrite split_ws_from_word by assumption. simpl.
    rewrite Hrw, app_nil_r, rev_involutive. f_equal. now apply IH.
Qed.

Lemma join_no_period ws : Forall is_word ws -> ~ In period (join [space] ws).
Proof.
  induction ws as [|w ws IH]; intros Hws Hin; [contradiction|].
  inversion Hws as [|? ? [_ Hw] Hrest]; subst.
  destruct ws as [|w' ws].
  - simpl in Hin. now apply Hw in Hin.
  - change (join [space] (w :: w' :: ws))
      with (w ++ [space] ++ join [space] (w' :: ws)) in Hin.
    apply in_app_or in Hin as [Hin|Hin]; [now apply Hw in Hin|].
    simpl in Hin. destruct Hin as [Hin|Hin]; [discriminate|].
    now apply IH.
Qed.

(** The score of a text without period: its number of words, when it has
    one at least. *)
Lemma readability_no_period content :
  ~ In period content ->
  compute_readability content
  = match split_ws content with
    | [] => NaN
    | _ :: _ => Fin (Qmake (Z.of_nat (length (split_ws content))) 1)
    end.
Proof.
  intros Hnot. unfold compute_readability, sentences, split.
  rewrite split_from_absent by assumption. simpl.
  rewrite truthy_strip. destruct (split_ws content) as [|w ws] eqn:E; [reflexivity|].
  simpl. rewrite split_ws_strip, E. simpl. now rewrite Nat.add_0_r.
Qed.

Lemma readability_final_period content :
  ~ In period content ->
  compute_readability (content ++ [period]) = compute_readability content.
Proof.
  intros Hnot. unfold compute_readability, sentences, split.
  rewrite split_from_app_sep by assumption.
  rewrite (split_from_absent period [] content) by assumption.
  simpl. destruct (truthy (strip content)); reflexivity.
Qed.

Lemma is_wordb_sound w : is_wordb w = true -> is_word w.
Proof.
  unfold is_wordb, is_word. intros H. apply andb_true_iff in H as [Hne Hall].
  split; [now destruct w|].
  intros c Hc. rewrite forallb_forall in Hall. apply Hall in Hc.
  apply andb_true_iff in Hc as [Hs Hp]. split.
  - now apply negb_true_iff.
  - apply negb_true_iff in Hp. now apply N.eqb_neq.
Qed.

(** C2: for every text, [compute_readability] is the arithmetic mean, over
    the non-empty trimmed segments between periods, of the number of
    whitespace-separated words of each segment; a single sentence of [W]
    words (with or without its final period) scores [W]; a text without
    any valid segment scores NaN. *)
Theorem compute_readability_mean :
  (forall content,
      compute_readability content
      = arithmetic_mean (map count_words (trimmed_segments content)))
  /\ (forall ws,
         ws <> [] -> Forall is_word ws ->
         compute_readability (join [space] ws)
         = Fin (Qmake (Z.of_nat (length ws)) 1)
         /\ compute_readability (join [space] ws ++ [period])
            = Fin (Qmake (Z.of_nat (length ws)) 1))
  /\ (forall content,
         trimmed_segments content = [] -> compute_readability content = NaN).
Proof.
  split; [|split].
  - intros content. unfold compute_readability.
    rewrite sentences_trimmed, np_mean_arithmetic. f_equal.
    apply map_ext. intros s. apply split_ws_count.
  - intros ws Hne Hws.
    assert (H : compute_readability (join [space] ws)
                = Fin (Qmake (Z.of_nat (length ws)) 1)).
    { rewrite readability_no_period by now apply join_no_period.
      rewrite split_ws_join by assumption. now destruct ws. }
    split; [assumption|].
    rewrite readability_final_period by now apply join_no_period.
    assumption.
  - intros content H. unfold compute_readability.
    now rewrite sentences_trimmed, H.
Qed.

Lemma compute_readability_mean_witness :
  compute_readability (lit "Hello big world") = Fin (Qmake 3 1)
  /\ compute_readability (lit " . .. ") = NaN.
Proof.
  destruct compute_readability_mean as [_ [Hsingle Hnan]]. split.
  - apply (Hsingle [lit "Hello"; lit "big"; lit "world"]).
    + discriminate.
    + repeat (apply Forall_cons; [apply is_wordb_sound; reflexivity|]).
      apply Forall_nil.
  - apply Hnan. reflexivity.
Defined.

(** ** Prompts *)

Lemma firstn_first_characters n (s : str) :
  n <= length s -> firstn n s = first_characters n s.
Proof.
  unfold first_characters. revert s.
  induction n as [|n IH]; intros s Hn; [reflexivity|].
  destruct s as [|c s]; [simpl in Hn; lia|].
  rewrite firstn_cons. cbn [seq map nth]. f_equal.
  rewrite <- seq_shift, map_map. apply IH. simpl in Hn. lia.
Qed.

Lemma slice_embedded content :
  firstn MAX_CONTENT_LENGTH content = embedded content.
Proof.
  unfold embedded. destruct (Nat.ltb_spec MAX_CONTENT_LENGTH (length content)).
  - apply firstn_first_characters. lia.
  - now apply firstn_all2.
Qed.

(** C7: the prompts of [analyze_documentation] and [suggest_visuals], as
    submitted to the completion endpoint, embed the first
    [MAX_CONTENT_LENGTH] characters of a content longer than
    [MAX_CONTENT_LENGTH], and the whole content otherwise. *)
Theorem prompts_embed_truncated_content (content : str) :
  (MAX_CONTENT_LENGTH < length content ->
     analyze_prompt content
     = analyze_head ++ first_characters MAX_CONTENT_LENGTH content ++ analyze_tail
     /\ visuals_prompt content
        = visuals_head ++ first_characters MAX_CONTENT_LENGTH content ++ visuals_tail
     /\ length (first_characters MAX_CONTENT_LENGTH content) = MAX_CONTENT_LENGTH)
  /\ (length content <= MAX_CONTENT_LENGTH ->
        analyze_prompt content = analyze_head ++ content ++ analyze_tail
        /\ visuals_prompt content = visuals_head ++ content ++ visuals_tail)
  /\ (forall completion st,
         analyze_documentation completion content st
         = anthropic_analysis completion
             (analyze_head ++ embedded content ++ analyze_tail) 2000 st
         /\ suggest_visuals completion content st
            = anthropic_analysis completion
                (visuals_head ++ embedded content ++ visuals_tail) 2000 st).
Proof.
  unfold analyze_documentation, suggest_visuals, analyze_prompt, visuals_prompt.
  split; [|split].
  - intros Hlong. rewrite firstn_first_characters by lia.
    split; [reflexivity|split; [reflexivity|]].
    unfold first_characters. now rewrite length_map, length_seq.
  - intros Hshort. rewrite firstn_all2 by assumption. now split.
  - intros completion st. rewrite slice_embedded. now split.
Qed.

Lemma prompts_embed_truncated_content_witness :
  length (first_characters MAX_CONTENT_LENGTH Scenario.long_page)
  = MAX_CONTENT_LENGTH
  /\ analyze_prompt Scenario.page = analyze_head ++ Scenario.page ++ analyze_tail.
Proof.
  split.
  - apply (prompts_embed_truncated_content Scenario.long_page).
    unfold Scenario.long_page. rewrite repeat_length. lia.
  - apply (prompts_embed_truncated_content Scenario.page).
    apply Nat.leb_le. vm_compute. reflexivity.
Defined.

(** ** The aggregate metric *)

Lemma finite_values_length l a : finite_values l = Some a -> length a = length l.
Proof.
  revert a. induction l as [|x l IH]; intros a H; simpl in H.
  - now injection H as <-.
  - destruct x as [|q]; [discriminate|].
    destruct (finite_values l) as [qs|]; [|discriminate].
    injection H as <-. simpl. now rewrite (IH qs).
Qed.

Lemma squared_differences_by_index (a b : list Q) :
  length a = length b ->
  map (fun xy => (fst xy - snd xy) ^ 2)%Q (combine a b)
  = map (fun i => (nth i a 0 - nth i b 0) ^ 2)%Q (seq 0 (length a)).
Proof.
  revert b. induction a as [|x a IH]; intros [|y b] Hlen;
    try discriminate; [reflexivity|].
  cbn [combine map length seq nth fst snd]. f_equal.
  rewrite <- seq_shift, map_map. apply IH. now injection Hlen.
Qed.

Lemma np_average_squared_differences (a b : list Q) :
  length a = length b ->
  np_average (map (fun xy => (fst xy - snd xy) ^ 2)%Q (combine a b))
  = mean_of_squared_differences a b.
Proof.
  intros Hlen. unfold np_average, mean_of_squared_differences.
  rewrite length_map, length_combine, <- Hlen, Nat.min_id.
  now rewrite squared_differences_by_index.
Qed.

(** When the library function returns, both inputs are free of NaN, of the
    same non-zero length, and the result is the mean of their squared
    differences. *)
Lemma mean_squared_error_returns y_true y_pred m :
  mean_squared_error y_true y_pred = inr m ->
  exists a b,
    finite_values y_true = Some a /\ finite_values y_pred = Some b
    /\ length y_true = length y_pred /\ y_true <> []
    /\ m = mean_of_squared_differences a b.
Proof.
  unfold mean_squared_error, check_array.
  destruct (Nat.eqb_spec (length y_true) (length y_pred)) as [Hlen|];
    [|discriminate]. cbn [negb].
  destruct y_true as [|x y_true]; [discriminate|].
  destruct (finite_values (x :: y_true)) as [a|] eqn:Ha; [|discriminate].
  destruct y_pred as [|y y_pred]; [discriminate|].
  destruct (finite_values (y :: y_pred)) as [b|] eqn:Hb; [|discriminate].
  intros H. injection H as <-. exists a, b. repeat split; try assumption.
  - discriminate.
  - apply np_average_squared_differences.
    apply finite_values_length in Ha, Hb. congruence.
Qed.

(** It returns on every such pair of inputs. *)
Lemma mean_squared_error_defined y_true y_pred a b :
  finite_values y_true = Some a -> finite_values y_pred = Some b ->
  length y_true = length y_pred -> y_true <> [] ->
  mean_squared_error y_true y_pred = inr (mean_of_squared_differences a b).
Proof.
  intros Ha Hb Hlen Hne. unfold mean_squared_error, check_array.
  rewrite Hlen, Nat.eqb_refl. cbn [negb].
  destruct y_true as [|x y_true]; [contradiction|].
  destruct y_pred as [|y y_pred]; [discriminate|].
  rewrite Ha, Hb. f_equal. apply np_average_squared_differences.
  apply finite_values_length in Ha, Hb. congruence.
Qed.

Lemma finite_values_none_iff l : finite_values l = None <-> In NaN l.
Proof.
  induction l as [|x l IH]; simpl.
  - split; [discriminate | contradiction].
  - destruct x as [|q].
    + split; auto.
    + destruct (finite_values l) as [qs|]; split.
      * discriminate.
      * intros [H|H]; [discriminate|]. apply IH in H. discriminate.
      * intros _. right. now apply IH.
      * reflexivity.
Qed.

Lemma mean_squared_error_value_error y_true y_pred e :
  mean_squared_error y_true y_pred = inl e -> exists detail, e = ValueError detail.
Proof.
  unfold mean_squared_error, check_array.
  destruct (negb (length y_true =? length y_pred)); [intros H; injection H as <-; eauto|].
  destruct y_true as [|x y_true]; [intros H; injection H as <-; eauto|].
  destruct (finite_values (x :: y_true)); [|intros H; injection H as <-; eauto].
  destruct y_pred as [|y y_pred]; [intros H; injection H as <-; eauto|].
  destruct (finite_values (y :: y_pred)); [discriminate|].
  intros H; injection H as <-; eauto.
Qed.

(** ** The per-URL step *)

Lemma logged_metrics_app l l' :
  logged_metrics (l ++ l') = logged_metrics l ++ logged_metrics l'.
Proof.
  induction l as [|r l IH]; [reflexivity|].
  destruct r; simpl; now rewrite IH.
Qed.

Lemma write_attempts_app l l' :
  write_attempts (l ++ l') = write_attempts l ++ write_attempts l'.
Proof.
  induction l as [|r l IH]; [reflexivity|].
  destruct r; simpl; now rewrite IH.
Qed.

Ltac run_pipeline :=
  cbv [process_url try_except bind fetch_content analyze_documentation
       suggest_visuals anthropic_analysis save_to_file tick logging written
       raise ret get original_scores_append improved_scores_append
       improved_docs_append new_accumulators compute_error_metrics
       clock log disk original_scores improved_scores improved_docs
       accumulators].

Ltac tidy_logs :=
  rewrite ?logged_metrics_app, ?write_attempts_app;
  cbn [logged_metrics write_attempts]; rewrite ?app_nil_r.

Section PipelineFacts.

Variable http_get : nat -> str -> exn + str.
Variable completion : nat -> str -> list str -> str -> nat -> exn + option str.
Variable write_file : nat -> str -> str -> option exn.

(** The three ways an iteration ends: the fetch fails; a completion
    fails after the original score was appended; everything succeeds. *)
Lemma process_url_cases url st :
  exists st',
    process_url http_get completion url st = (st', inr tt)
    /\ disk st' = disk st
    /\ logged_metrics (log st') = logged_metrics (log st)
    /\ ((exists e, http_get (clock st) url = inl e)
        /\ accumulators st' = accumulators st
        \/ exists content,
             http_get (clock st) url = inr content
             /\ original_scores st'
                = original_scores st ++ [compute_readability content]
             /\ (improved_scores st' = improved_scores st
                 /\ improved_docs st' = improved_docs st
                 /\ ((exists e, completion (S (clock st)) (analyze_prompt content)
                                  [nl ++ nl] ANTHROPIC_MODEL 2000 = inl e)
                     \/ (exists e, completion (S (S (clock st)))
                                     (visuals_prompt content)
                                     [nl ++ nl] ANTHROPIC_MODEL 2000 = inl e))
                 \/ exists r1 r2,
                      completion (S (clock st)) (analyze_prompt content)
                        [nl ++ nl] ANTHROPIC_MODEL 2000 = inr r1
                      /\ completion (S (S (clock st))) (visuals_prompt content)
                           [nl ++ nl] ANTHROPIC_MODEL 2000 = inr r2
                      /\ improved_scores st'
                         = improved_scores st
                             ++ [compute_readability (completion_text r1)]
                      /\ improved_docs st'
                         = improved_docs st
                             ++ [enhanced_doc (completion_text r1)
                                   (completion_text r2)])).
Proof.
  destruct st as [c lg dk os ips ds]. run_pipeline.
  destruct (http_get c url) as [e|content] eqn:Hget.
  - destruct e; eexists; (split; [reflexivity|]); run_pipeline; tidy_logs;
      repeat split; left; split; eauto.
  - destruct (completion (S c) (analyze_prompt content) [nl ++ nl]
                ANTHROPIC_MODEL 2000) as [e1|r1] eqn:H1.
    + eexists; (split; [reflexivity|]); run_pipeline; tidy_logs.
      repeat split. right. exists content. repeat split. left. eauto.
    + destruct (completion (S (S c)) (visuals_prompt content) [nl ++ nl]
                  ANTHROPIC_MODEL 2000) as [e2|r2] eqn:H2.
      * eexists; (split; [reflexivity|]); run_pipeline; tidy_logs.
        repeat split. right. exists content. repeat split. left. eauto.
      * eexists; (split; [reflexivity|]); run_pipeline; tidy_logs.
        repeat split. right. exists content. repeat split. right.
        exists r1, r2. auto.
Qed.

(** A URL that is fetched and whose two completions return. *)
Lemma process_url_success url st content r1 r2 :
  http_get (clock st) url = inr content ->
  completion (S (clock st)) (analyze_prompt content)
    [nl ++ nl] ANTHROPIC_MODEL 2000 = inr r1 ->
  completion (S (S (clock st))) (visuals_prompt content)
    [nl ++ nl] ANTHROPIC_MODEL 2000 = inr r2 ->
  exists st',
    process_url http_get completion url st = (st', inr tt)
    /\ improved_scores st'
       = improved_scores st ++ [compute_readability (completion_text r1)]
    /\ improved_docs st'
       = improved_docs st
           ++ [enhanced_doc (completion_text r1) (completion_text r2)].
Proof.
  intros Hget H1 H2.
  destruct (process_url_cases url st)
    as [st' [Hrun [_ [_ [[[e He] _] | [content' [Hok [_ Hrest]]]]]]]];
    [congruence|].
  assert (content' = content) as -> by congruence.
  exists st'. split; [assumption|].
  destruct Hrest as [[_ [_ [[e He] | [e He]]]] | [r1' [r2' [H1' [H2' [Hi Hd]]]]]];
    [congruence | congruence |].
  assert (r1' = r1) as -> by congruence.
  assert (r2' = r2) as -> by congruence.
  now split.
Qed.

(** An iteration appends a document exactly when it appends an improved
    score, and both come from the same improvement text. *)
Lemma process_url_pairs url st :
  exists st',
    process_url http_get completion url st = (st', inr tt)
    /\ (improved_docs st' = improved_docs st
        /\ improved_scores st' = improved_scores st
        \/ exists improved_text visuals,
             improved_docs st'
             = improved_docs st ++ [enhanced_doc improved_text visuals]
             /\ improved_scores st'
                = improved_scores st ++ [compute_readability improved_text]).
Proof.
  destruct (process_url_cases url st)
    as [st' [Hrun [_ [_ [[_ Hacc] | [content [_ [_ Hrest]]]]]]]];
    exists st'; (split; [assumption|]).
  - unfold accumulators in Hacc. injection Hacc as _ Hi Hd. now left.
  - destruct Hrest as [[Hi [Hd _]] | [r1 [r2 [_ [_ [Hi Hd]]]]]];
      [now left | right; eauto].
Qed.

Lemma process_url_aligned url st st' r :
  process_url http_get completion url st = (st', r) -> aligned st -> aligned st'.
Proof.
  intros Hrun [texts [Hd Hi]].
  destruct (process_url_pairs url st) as [st2 [Hrun2 Hcases]].
  rewrite Hrun in Hrun2. injection Hrun2 as <- _.
  destruct Hcases as [[Hd' Hi'] | [t [v [Hd' Hi']]]].
  - exists texts. split; congruence.
  - exists (texts ++ [(t, v)]). rewrite !map_app. simpl. split; congruence.
Qed.

(** The loop over the URLs never raises; it writes no file and logs no
    metric, and keeps documents and improved scores aligned. *)
Lemma process_urls_run urls st :
  exists st',
    for_each urls (process_url http_get completion) st = (st', inr tt)
    /\ disk st' = disk st
    /\ logged_metrics (log st') = logged_metrics (log st)
    /\ (aligned st -> aligned st').
Proof.
  revert st. induction urls as [|url urls IH]; intros st.
  - exists st. repeat split. auto.
  - destruct (process_url_cases url st) as [st1 [Hrun [Hdisk [Hlog _]]]].
    destruct (IH st1) as [st2 [Hrun2 [Hdisk2 [Hlog2 Hal]]]].
    exists st2. cbn [for_each]. unfold bind at 1. rewrite Hrun.
    repeat split; try congruence.
    intros H. apply Hal. eapply process_url_aligned; eauto.
Qed.

(** ** Persistence *)

Lemma save_to_file_run filename content st :
  exists st' ok,
    save_to_file write_file filename content st = (st', inr tt)
    /\ accumulators st' = accumulators st
    /\ logged_metrics (log st') = logged_metrics (log st)
    /\ write_attempts (log st') = write_attempts (log st) ++ [(filename, ok)]
    /\ disk st' = disk st ++ (if ok then [(filename, content)] else []).
Proof.
  destruct st as [c lg dk os ips ds]. run_pipeline.
  destruct (write_file c filename content) as [e|].
  - eexists; exists false. split; [reflexivity|]. run_pipeline. tidy_logs.
    rewrite ?app_nil_r. auto.
  - eexists; exists true. split; [reflexivity|]. run_pipeline. tidy_logs.
    auto.
Qed.

Lemma save_from_run i docs st :
  exists st',
    for_each (enumerate_from i docs)
      (fun id => save_to_file write_file (doc_filename (fst id + 1)) (snd id)) st
    = (st', inr tt)
    /\ accumulators st' = accumulators st
    /\ logged_metrics (log st') = logged_metrics (log st)
    /\ map fst (write_attempts (log st'))
       = map fst (write_attempts (log st))
           ++ map (fun k => doc_filename (k + 1)) (seq i (length docs))
    /\ (forall f c,
           In (f, c) (disk st') ->
           In (f, c) (disk st)
           \/ exists k, f = doc_filename (i + k + 1) /\ nth_error docs k = Some c).
Proof.
  revert i st. induction docs as [|doc docs IH]; intros i st.
  - exists st. cbn [enumerate_from for_each length seq map]. rewrite app_nil_r.
    repeat split. auto.
  - destruct (save_to_file_run (doc_filename (i + 1)) doc st)
      as [st1 [ok [Hrun [Hacc [Hlog [Hatt Hdisk]]]]]].
    destruct (IH (S i) st1) as [st2 [Hrun2 [Hacc2 [Hlog2 [Hatt2 Hdisk2]]]]].
    exists st2. cbn [enumerate_from for_each fst snd]. unfold bind at 1.
    rewrite Hrun. repeat split; try congruence.
    + rewrite Hatt2, Hatt, map_app, <- app_assoc. reflexivity.
    + intros f c Hin. apply Hdisk2 in Hin as [Hin | [k [Hf Hk]]].
      * rewrite Hdisk in Hin. apply in_app_or in Hin as [Hin | Hin]; [now left|].
        right. exists 0. destruct ok; [|contradiction].
        destruct Hin as [Hin|[]]. injection Hin as <- <-.
        now rewrite Nat.add_0_r.
      * right. exists (S k). split; [|assumption].
        rewrite Hf. f_equal. lia.
Qed.

(** A write, exactly: one call to the file system, one log line that
    tells its outcome, and the file on disk when the call succeeded. *)
Lemma save_to_file_outcome filename content st :
  exists st',
    save_to_file write_file filename content st = (st', inr tt)
    /\ clock st' = S (clock st)
    /\ accumulators st' = accumulators st
    /\ log st'
       = log st
           ++ [outcome_record
                 (filename, content, write_file (clock st) filename content)]
    /\ disk st'
       = disk st
           ++ outcome_file
                (filename, content, write_file (clock st) filename content).
Proof.
  destruct st as [c lg dk os ips ds]. run_pipeline.
  destruct (write_file c filename content) as [e|];
    (eexists; split; [reflexivity|]); run_pipeline;
    rewrite ?app_nil_r; auto.
Qed.

Lemma save_from_outcomes i docs st :
  exists st',
    for_each (enumerate_from i docs)
      (fun id => save_to_file write_file (doc_filename (fst id + 1)) (snd id)) st
    = (st', inr tt)
    /\ clock st' = clock st + length docs
    /\ accumulators st' = accumulators st
    /\ log st'
       = log st
           ++ map outcome_record
                (write_outcomes write_file (clock st) (enumerate_from i docs))
    /\ disk st'
       = disk st
           ++ flat_map outcome_file
                (write_outcomes write_file (clock st) (enumerate_from i docs)).
Proof.
  revert i st. induction docs as [|doc docs IH]; intros i st.
  - exists st. cbn [enumerate_from for_each length write_outcomes map flat_map].
    rewrite !app_nil_r, Nat.add_0_r. auto.
  - destruct (save_to_file_outcome (doc_filename (i + 1)) doc st)
      as [st1 [Hrun [Hc [Hacc [Hlog Hdisk]]]]].
    destruct (IH (S i) st1) as [st2 [Hrun2 [Hc2 [Hacc2 [Hlog2 Hdisk2]]]]].
    exists st2. cbn [enumerate_from for_each fst snd]. unfold bind at 1.
    rewrite Hrun. split; [assumption|].
    cbn [length write_outcomes map flat_map fst snd].
    rewrite Hc2, Hlog2, Hdisk2, Hc, Hlog, Hdisk, Hacc2, Hacc, <- !app_assoc.
    repeat apply conj; auto; lia.
Qed.

Lemma write_outcomes_nth write_file' t i docs k doc :
  nth_error docs k = Some doc ->
  In (doc_filename (i + k + 1), doc,
      write_file' (t + k) (doc_filename (i + k + 1)) doc)
    (write_outcomes write_file' t (enumerate_from i docs)).
Proof.
  revert t i k. induction docs as [|d docs IH]; intros t i k Hk.
  - destruct k; discriminate.
  - destruct k as [|k]; cbn [enumerate_from write_outcomes fst snd].
    + injection Hk as ->. left. now rewrite !Nat.add_0_r.
    + right. cbn [nth_error] in Hk.
      replace (i + S k) with (S i + k) by lia.
      replace (t + S k) with (S t + k) by lia.
      now apply IH.
Qed.

(** ** The whole pipeline *)

Lemma compute_error_metrics_run st :
  match mean_squared_error (original_scores st) (improved_scores st) with
  | inl e => compute_error_metrics st = (st, inl e)
  | inr mse =>
      exists st',
        compute_error_metrics st = (st', inr tt)
        /\ accumulators st' = accumulators st
        /\ disk st' = disk st
        /\ logged_metrics (log st') = logged_metrics (log st) ++ [mse]
        /\ write_attempts (log st') = write_attempts (log st)
  end.
Proof.
  destruct st as [c lg dk os ips ds]. run_pipeline.
  destruct (mean_squared_error os ips) as [e|mse]; [reflexivity|].
  eexists. split; [reflexivity|]. run_pipeline. tidy_logs. auto.
Qed.

(** A run is the loop over the URLs, which always ends, followed by the
    metric: when the metric raises, the run stops there; otherwise it is
    logged once and every document is handed to [save_to_file]. *)
Lemma process_documentation_run urls st0 :
  exists st1,
    for_each urls (process_url http_get completion)
      (fst (new_accumulators st0))
    = (st1, inr tt)
    /\ aligned st1
    /\ disk st1 = disk st0
    /\ logged_metrics (log st1) = logged_metrics (log st0)
    /\ match mean_squared_error (original_scores st1) (improved_scores st1) with
       | inl e =>
           process_documentation http_get completion write_file urls st0
           = (st1, inl e)
       | inr mse =>
           exists st2,
             process_documentation http_get completion write_file urls st0
             = (st2, inr tt)
             /\ accumulators st2 = accumulators st1
             /\ logged_metrics (log st2) = logged_metrics (log st0) ++ [mse]
             /\ (forall f c,
                    In (f, c) (disk st2) ->
                    In (f, c) (disk st0)
                    \/ exists k,
                         f = doc_filename (k + 1)
                         /\ nth_error (improved_docs st2) k = Some c)
       end.
Proof.
  destruct (process_urls_run urls (fst (new_accumulators st0)))
    as [st1 [Hloop [Hdisk [Hlog Hal]]]].
  exists st1. split; [assumption|].
  assert (Hal1 : aligned st1).
  { apply Hal. exists []. split; reflexivity. }
  split; [assumption|]. split; [exact Hdisk|]. split; [exact Hlog|].
  pose proof (compute_error_metrics_run st1) as Hmse.
  assert (Hpd :
            process_documentation http_get completion write_file urls st0
            = let (st', s) := compute_error_metrics st1 in
              match s with
              | inl e => (st', inl e)
              | inr _ => save_results write_file (improved_docs st') st'
              end).
  { unfold process_documentation. unfold bind at 1.
    change (new_accumulators st0)
      with (fst (new_accumulators st0), @inr exn unit tt).
    cbv beta iota. unfold bind at 1. rewrite Hloop. reflexivity. }
  rewrite Hpd. clear Hpd.
  destruct (mean_squared_error (original_scores st1) (improved_scores st1))
    as [e|mse].
  - now rewrite Hmse.
  - destruct Hmse as [st1' [Hrun [Hacc [Hdisk' [Hlog' _]]]]]. rewrite Hrun.
    destruct (save_from_run 0 (improved_docs st1') st1')
      as [st2 [Hsave [Hacc2 [Hlog2 [_ Hdisk2]]]]].
    exists st2. unfold save_results, enumerate. rewrite Hsave.
    split; [reflexivity|]. split; [congruence|]. split.
    + rewrite Hlog2, Hlog'. f_equal. exact Hlog.
    + intros f c Hin. apply Hdisk2 in Hin as [Hin | [k [Hf Hk]]].
      * left. rewrite Hdisk', Hdisk in Hin. exact Hin.
      * right. exists k. split; [exact Hf|].
        unfold accumulators in Hacc2. injection Hacc2 as _ _ Hd.
        now rewrite Hd.
Qed.

End PipelineFacts.

(** * The properties of the specification *)

Section Guarantees.

Variable http_get : nat -> str -> exn + str.
Variable completion : nat -> str -> list str -> str -> nat -> exn + option str.
Variable write_file : nat -> str -> str -> option exn.

(** C5: when [fetch_content] raises for a URL, the iteration leaves the
    three accumulators as they were and the loop goes on with the
    remaining URLs, in order. *)
Theorem fetch_failure_skips_url url rest st st1 e :
  fetch_content http_get url st = (st1, inl e) ->
  exists st2,
    process_url http_get completion url st = (st2, inr tt)
    /\ original_scores st2 = original_scores st
    /\ improved_scores st2 = improved_scores st
    /\ improved_docs st2 = improved_docs st
    /\ for_each (url :: rest) (process_url http_get completion) st
       = for_each rest (process_url http_get completion) st2.
Proof.
  intros Hfetch.
  assert (Hget : exists e', http_get (clock st) url = inl e').
  { destruct st as [c lg dk os ips ds]. revert Hfetch. run_pipeline.
    destruct (http_get c url) as [e'|text]; [eauto|discriminate]. }
  destruct Hget as [e' Hget].
  destruct (process_url_cases http_get completion url st)
    as [st2 [Hrun [_ [_ [[_ Hacc] | [content [Hok _]]]]]]]; [|congruence].
  exists st2. unfold accumulators in Hacc. injection Hacc as Ho Hi Hd.
  repeat split; try assumption.
  cbn [for_each]. unfold bind. now rewrite Hrun.
Qed.

(** C6: for a URL processed successfully, the improved score appended is
    [compute_readability] of the improvement text; on some texts this is
    neither the score of the enhanced document nor that of the visuals
    text. *)
Theorem improved_score_of_improvement_text :
  (forall url st content r1 r2,
      http_get (clock st) url = inr content ->
      completion (S (clock st)) (analyze_prompt content)
        [nl ++ nl] ANTHROPIC_MODEL 2000 = inr r1 ->
      completion (S (S (clock st))) (visuals_prompt content)
        [nl ++ nl] ANTHROPIC_MODEL 2000 = inr r2 ->
      exists st',
        process_url http_get completion url st = (st', inr tt)
        /\ improved_scores st'
           = improved_scores st ++ [compute_readability (completion_text r1)]
        /\ improved_docs st'
           = improved_docs st
               ++ [enhanced_doc (completion_text r1) (completion_text r2)])
  /\ (exists improved_text visuals q qdoc qvis,
         compute_readability improved_text = Fin q
         /\ compute_readability (enhanced_doc improved_text visuals) = Fin qdoc
         /\ compute_readability visuals = Fin qvis
         /\ ~ (q == qdoc)%Q /\ ~ (q == qvis)%Q).
Proof.
  split; [apply process_url_success|].
  - exists Scenario.advice, Scenario.page, (5 # 2)%Q, (19 # 4)%Q, (8 # 2)%Q.
    repeat split; try (vm_compute; reflexivity);
      apply Qeq_bool_neq; vm_compute; reflexivity.
Qed.

(** C8: [save_to_file] always returns normally: it calls the file
    system once and, when the call fails, logs the failure with its cause
    and leaves the disk as it was; when the call succeeds, the file is on
    disk and the success is logged. The save loop therefore never stops
    early: it calls the file system once per document, in order, under
    the names [improved_doc_1.md], [improved_doc_2.md], ..., and every
    document whose own write succeeds is on disk at the end, whatever
    happened to the writes of the others. *)
Theorem save_to_file_swallows_errors :
  (forall filename content st,
      exists st',
        save_to_file write_file filename content st = (st', inr tt)
        /\ clock st' = S (clock st)
        /\ match write_file (clock st) filename content with
           | None =>
               log st' = log st ++ [SavedContent filename]
               /\ disk st' = disk st ++ [(filename, content)]
           | Some e =>
               log st' = log st ++ [SaveFailed filename e]
               /\ disk st' = disk st
           end)
  /\ (forall docs st,
         exists st',
           save_results write_file docs st = (st', inr tt)
           /\ clock st' = clock st + length docs
           /\ log st'
              = log st
                  ++ map outcome_record
                       (write_outcomes write_file (clock st) (enumerate docs))
           /\ disk st'
              = disk st
                  ++ flat_map outcome_file
                       (write_outcomes write_file (clock st) (enumerate docs))
           /\ forall k doc,
               nth_error docs k = Some doc ->
               match write_file (clock st + k) (doc_filename (k + 1)) doc with
               | None =>
                   In (doc_filename (k + 1), doc) (disk st')
                   /\ In (SavedContent (doc_filename (k + 1))) (log st')
               | Some e => In (SaveFailed (doc_filename (k + 1)) e) (log st')
               end).
Proof.
  split.
  - intros filename content st.
    destruct (save_to_file_outcome write_file filename content st)
      as [st' [Hrun [Hc [_ [Hlog Hdisk]]]]].
    exists st'. split; [assumption|]. split; [assumption|].
    destruct (write_file (clock st) filename content);
      cbn [outcome_record outcome_file] in Hlog, Hdisk;
      rewrite ?app_nil_r in Hdisk; auto.
  - intros docs st.
    destruct (save_from_outcomes write_file 0 docs st)
      as [st' [Hrun [Hc [_ [Hlog Hdisk]]]]].
    exists st'. unfold save_results, enumerate.
    repeat (split; [assumption|]).
    intros k doc Hk.
    pose proof (write_outcomes_nth write_file (clock st) 0 docs k Hk) as Hin.
    cbn [Nat.add] in Hin.
    destruct (write_file (clock st + k) (doc_filename (k + 1)) doc) as [e|].
    + rewrite Hlog. apply in_or_app. right.
      apply (in_map outcome_record) in Hin. exact Hin.
    + split.
      * rewrite Hdisk. apply in_or_app. right. apply in_flat_map.
        eexists. split; [exact Hin|]. now left.
      * rewrite Hlog. apply in_or_app. right.
        apply (in_map outcome_record) in Hin. exact Hin.
Qed.

(** C10: an iteration of the loop appends an enhanced document exactly
    when it appends an improved score, wherever it fails, so both lists
    keep the same length; at the end of a run every file written is
    [improved_doc_k.md] for the [k]-th document, and the [k]-th improved
    score is the score of the improvement text of that document. *)
Theorem documents_match_improved_scores :
  (forall url st st' r,
      process_url http_get completion url st = (st', r) ->
      (improved_docs st' = improved_docs st
       /\ improved_scores st' = improved_scores st
       \/ exists improved_text visuals,
            improved_docs st'
            = improved_docs st ++ [enhanced_doc improved_text visuals]
            /\ improved_scores st'
               = improved_scores st ++ [compute_readability improved_text])
      /\ (length (improved_docs st) = length (improved_scores st) ->
          length (improved_docs st') = length (improved_scores st')))
  /\ (forall urls st r,
         process_documentation http_get completion write_file urls initial
         = (st, r) ->
         length (improved_docs st) = length (improved_scores st)
         /\ forall f c,
             In (f, c) (disk st) ->
             exists k improved_text visuals,
               f = doc_filename (k + 1)
               /\ c = enhanced_doc improved_text visuals
               /\ nth_error (improved_docs st) k = Some c
               /\ nth_error (improved_scores st) k
                  = Some (compute_readability improved_text)).
Proof.
  split.
  - intros url st st' r Hrun.
    destruct (process_url_pairs http_get completion url st)
      as [st2 [Hrun2 Hcases]].
    rewrite Hrun in Hrun2. injection Hrun2 as <- _.
    split; [assumption|]. intros Hlen.
    destruct Hcases as [[-> ->] | [t [v [-> ->]]]]; [assumption|].
    rewrite !length_app. simpl. lia.
  - intros urls st r Hrun.
    destruct (process_documentation_run http_get completion write_file
                urls initial)
      as [st1 [_ [Hal [Hdisk [_ Hend]]]]].
    assert (Hlen : forall s, aligned s ->
                             length (improved_docs s) = length (improved_scores s)).
    { intros s [texts [-> ->]]. now rewrite !length_map. }
    destruct (mean_squared_error (original_scores st1) (improved_scores st1))
      as [e|mse].
    + rewrite Hrun in Hend. injection Hend as -> _.
      split; [now apply Hlen|].
      intros f c Hin. rewrite Hdisk in Hin. contradiction.
    + destruct Hend as [st2 [Hrun2 [Hacc [_ Hfiles]]]].
      rewrite Hrun in Hrun2. injection Hrun2 as -> _.
      unfold accumulators in Hacc. injection Hacc as _ Hi Hd.
      assert (Hal2 : aligned st2).
      { destruct Hal as [texts [Hd1 Hi1]]. exists texts. split; congruence. }
      split; [now apply Hlen|].
      intros f c Hin. apply Hfiles in Hin as [[] | [k [Hf Hk]]].
      destruct Hal2 as [texts [Hd2 Hi2]].
      rewrite Hd2 in Hk. rewrite nth_error_map in Hk.
      destruct (nth_error texts k) as [[t v]|] eqn:Htv; [|discriminate].
      injection Hk as <-. exists k, t, v.
      rewrite Hd2, Hi2, !nth_error_map, Htv. auto.
Qed.

(** C3, amended: at the end of a run whose two score sequences have the
    same non-zero length, a logged metric is the mean of the element-wise
    squared differences of the two sequences; it is logged, once, when no
    score is NaN; when a score is NaN the metric raises a [ValueError]
    and nothing is logged. *)
Theorem logged_metric_is_mean_squared_difference urls st r :
  process_documentation http_get completion write_file urls initial = (st, r) ->
  length (original_scores st) = length (improved_scores st) ->
  original_scores st <> [] ->
  (forall mse,
      In mse (logged_metrics (log st)) ->
      exists a b,
        finite_values (original_scores st) = Some a
        /\ finite_values (improved_scores st) = Some b
        /\ mse = mean_of_squared_differences a b)
  /\ (forall a b,
         finite_values (original_scores st) = Some a ->
         finite_values (improved_scores st) = Some b ->
         logged_metrics (log st) = [mean_of_squared_differences a b])
  /\ (~ In NaN (original_scores st) ->
      ~ In NaN (improved_scores st) ->
      r = inr tt
      /\ exists a b,
          finite_values (original_scores st) = Some a
          /\ finite_values (improved_scores st) = Some b
          /\ logged_metrics (log st) = [mean_of_squared_differences a b])
  /\ (In NaN (original_scores st) \/ In NaN (improved_scores st) ->
      logged_metrics (log st) = []
      /\ exists detail, r = inl (ValueError detail)).
Proof.
  intros Hrun Hlen Hne.
  destruct (process_documentation_run http_get completion write_file
              urls initial)
    as [st1 [_ [_ [_ [Hlog Hend]]]]].
  destruct (mean_squared_error (original_scores st1) (improved_scores st1))
    as [e|mse] eqn:Hmse.
  - rewrite Hrun in Hend. injection Hend as -> ->.
    assert (Hnone : forall a b,
               finite_values (original_scores st1) = Some a ->
               finite_values (improved_scores st1) = Some b -> False).
    { intros a b Ha Hb.
      rewrite (@mean_squared_error_defined _ _ _ _ Ha Hb Hlen Hne) in Hmse.
      discriminate. }
    split; [|split; [|split]].
    + intros m Hin. rewrite Hlog in Hin. contradiction.
    + intros a b Ha Hb. exfalso. eauto.
    + intros Ho Hi. exfalso.
      destruct (finite_values (original_scores st1)) as [a|] eqn:Ha;
        [|apply Ho; now apply finite_values_none_iff].
      destruct (finite_values (improved_scores st1)) as [b|] eqn:Hb;
        [|apply Hi; now apply finite_values_none_iff].
      eauto.
    + intros _. split; [exact Hlog|].
      apply mean_squared_error_value_error in Hmse as [detail ->]. eauto.
  - destruct Hend as [st2 [Hrun2 [Hacc [Hlog2 _]]]].
    rewrite Hrun in Hrun2. injection Hrun2 as -> ->.
    unfold accumulators in Hacc. injection Hacc as Ho Hi _.
    rewrite <- Ho, <- Hi in Hmse.
    apply mean_squared_error_returns in Hmse
      as [a [b [Ha [Hb [_ [_ Hm]]]]]].
    cbn [initial log logged_metrics app] in Hlog2.
    split; [|split; [|split]].
    + intros m Hin. rewrite Hlog2 in Hin. destruct Hin as [<-|[]].
      exists a, b. auto.
    + intros a' b' Ha' Hb'. rewrite Hlog2. congruence.
    + intros _ _. split; [reflexivity|]. exists a, b.
      rewrite Hlog2, Hm. auto.
    + intros [Hin|Hin]; apply finite_values_none_iff in Hin; congruence.
Qed.

(** A run returns normally exactly when the metric does not raise: the
    loop over the URLs and the save loop never raise. *)
Lemma run_completes_unless_metric_raises urls st r :
  process_documentation http_get completion write_file urls initial = (st, r) ->
  r = inr tt
  <-> exists mse,
        mean_squared_error (original_scores st) (improved_scores st) = inr mse.
Proof.
  intros Hrun.
  destruct (process_documentation_run http_get completion write_file
              urls initial)
    as [st1 [_ [_ [_ [_ Hend]]]]].
  destruct (mean_squared_error (original_scores st1) (improved_scores st1))
    as [e|mse] eqn:Hmse.
  - rewrite Hrun in Hend. injection Hend as -> ->. split.
    + discriminate.
    + intros [mse H]. congruence.
  - destruct Hend as [st2 [Hrun2 [Hacc _]]].
    rewrite Hrun in Hrun2. injection Hrun2 as -> ->.
    unfold accumulators in Hacc. injection Hacc as Ho Hi _.
    split; [|reflexivity]. intros _. exists mse. congruence.
Qed.

End Guarantees.

(** ** The enhanced document *)

Lemma occurs_at_app (before needle rest : str) :
  occurs_at needle (before ++ needle ++ rest) (length before).
Proof.
  unfold occurs_at. induction before as [|c before IH]; simpl; [|exact IH].
  induction needle as [|c needle IH]; simpl; [reflexivity|]. now f_equal.
Qed.

Lemma firstn_app_exact (x y : str) : firstn (length x) (x ++ y) = x.
Proof. induction x as [|c x IH]; simpl; [reflexivity|]. now f_equal. Qed.

Lemma blank_line_at_end (before rest : str) :
  preceded_by_blank_line ((before ++ nl ++ nl) ++ rest)
    (length (before ++ nl ++ nl)).
Proof. exists before. apply firstn_app_exact. Qed.

(** C9, amended: for a URL processed successfully, the enhanced document
    is the header "Improved Documentation", a blank line, the improvement
    text, a blank line, the header "Visual Suggestions", a blank line and
    the visuals text, in this order: a blank line follows each header and
    separates the two sections, and nothing precedes the first header. *)
Theorem enhanced_doc_layout :
  (forall improved_text visuals,
      let doc := enhanced_doc improved_text visuals in
      let first_text := header improved_title ++ nl ++ nl in
      let second_header := first_text ++ improved_text ++ nl ++ nl in
      let second_text := second_header ++ header visuals_title ++ nl ++ nl in
      doc = header improved_title ++ nl ++ nl ++ improved_text ++ nl ++ nl
            ++ header visuals_title ++ nl ++ nl ++ visuals
      /\ occurs_at (header improved_title) doc 0
      /\ occurs_at improved_text doc (length first_text)
      /\ occurs_at (header visuals_title) doc (length second_header)
      /\ occurs_at visuals doc (length second_text)
      /\ preceded_by_blank_line doc (length first_text)
      /\ preceded_by_blank_line doc (length second_header)
      /\ preceded_by_blank_line doc (length second_text)
      /\ ~ preceded_by_blank_line doc 0)
  /\ (forall http_get completion url st content r1 r2,
         http_get (clock st) url = inr content ->
         completion (S (clock st)) (analyze_prompt content)
           [nl ++ nl] ANTHROPIC_MODEL 2000 = inr r1 ->
         completion (S (S (clock st))) (visuals_prompt content)
           [nl ++ nl] ANTHROPIC_MODEL 2000 = inr r2 ->
         exists st',
           process_url http_get completion url st = (st', inr tt)
           /\ improved_docs st'
              = improved_docs st
                  ++ [enhanced_doc (completion_text r1) (completion_text r2)]).
Proof.
  split.
  - intros t v doc first_text second_header second_text.
    assert (Hdoc : doc = header improved_title ++ nl ++ nl ++ t ++ nl ++ nl
                         ++ header visuals_title ++ nl ++ nl ++ v)
      by reflexivity.
    assert (H1 : doc = first_text ++ t ++ (nl ++ nl ++ header visuals_title
                                             ++ nl ++ nl ++ v)).
    { subst first_text. rewrite Hdoc, <- !app_assoc. reflexivity. }
    assert (H2 : doc = second_header ++ header visuals_title
                         ++ (nl ++ nl ++ v)).
    { subst second_header first_text. rewrite Hdoc, <- !app_assoc. reflexivity. }
    assert (H3 : doc = second_text ++ v ++ []).
    { subst second_text second_header first_text.
      rewrite Hdoc, <- !app_assoc, app_nil_r. reflexivity. }
    split; [exact Hdoc|].
    split; [reflexivity|].
    split; [rewrite H1; apply occurs_at_app|].
    split; [rewrite H2; apply occurs_at_app|].
    split; [rewrite H3; apply occurs_at_app|].
    split; [rewrite H1; apply blank_line_at_end|].
    assert (E2 : second_header = (first_text ++ t) ++ nl ++ nl)
      by (subst second_header; now rewrite <- app_assoc).
    assert (E3 : second_text = (second_header ++ header visuals_title) ++ nl ++ nl)
      by (subst second_text; now rewrite <- app_assoc).
    split; [rewrite H2, E2; apply blank_line_at_end|].
    split; [rewrite H3, E3; apply blank_line_at_end|].
    intros [before Hb]. destruct before; discriminate.
  - intros http_get completion url st content r1 r2 Hget H1 H2.
    destruct (process_url_success http_get completion url st Hget H1 H2)
      as [st' [Hrun [_ Hd]]]. eauto.
Qed.

(** The document starts with its first header: no blank line comes before
    it, whatever the two texts are. C9 as stated, with a blank line before
    each header, fails on the document made of [Scenario.advice] and
    [Scenario.page]. *)
Lemma no_blank_line_before_first_header :
  ~ blank_line_before_headers
      (enhanced_doc Scenario.advice Scenario.page)
      Scenario.advice Scenario.page.
Proof.
  intros [_ [Hfirst _]].
  destruct (Hfirst 0 eq_refl) as [before Hb].
  destruct before; discriminate.
Qed.

(** ** Runs on concrete worlds *)

(** C1: one URL is fetched and scored, then the completion endpoint
    fails: the original score stays in its list, no improved score joins
    it, and the metric rejects the two lists. *)
Theorem analysis_failure_leaves_unpaired_score :
  original_scores (fst Scenario.run_api_down) = [Fin (8 # 2)%Q]
  /\ improved_scores (fst Scenario.run_api_down) = []
  /\ improved_docs (fst Scenario.run_api_down) = []
  /\ snd Scenario.run_api_down
     = inl (ValueError
              (lit "Found input variables with inconsistent numbers of samples")).
Proof. repeat (apply conj); vm_compute; reflexivity. Qed.

(** C4: two URLs are fetched, the first is processed entirely and the
    completion endpoint fails on the second: scores exist in both lists,
    yet the metric raises, nothing is logged and no document is saved. *)
Theorem metric_raises_with_scores_present :
  original_scores (fst Scenario.run_api_lost) = [Fin (8 # 2)%Q; Fin (8 # 2)%Q]
  /\ improved_scores (fst Scenario.run_api_lost) = [Fin (5 # 2)%Q]
  /\ length (improved_docs (fst Scenario.run_api_lost)) = 1
  /\ snd Scenario.run_api_lost
     = inl (ValueError
              (lit "Found input variables with inconsistent numbers of samples"))
  /\ logged_metrics (log (fst Scenario.run_api_lost)) = []
  /\ disk (fst Scenario.run_api_lost) = [].
Proof. repeat (apply conj); vm_compute; reflexivity. Qed.

(** The scenario of three URLs whose second fetch fails: two original
    scores, two improved scores, two files named for 1 and 2, and one
    metric, the mean of the two squared differences. *)
Example three_urls_second_fetch_fails :
  snd Scenario.run_without_b = inr tt
  /\ original_scores (fst Scenario.run_without_b)
     = [Fin (8 # 2)%Q; Fin (8 # 2)%Q]
  /\ improved_scores (fst Scenario.run_without_b)
     = [Fin (5 # 2)%Q; Fin (5 # 2)%Q]
  /\ map fst (disk (fst Scenario.run_without_b))
     = [lit "improved_doc_1.md"; lit "improved_doc_2.md"]
  /\ map (fun mse => Qeq_bool mse (9 # 4))
       (logged_metrics (log (fst Scenario.run_without_b)))
     = [true].
Proof. repeat (apply conj); vm_compute; reflexivity. Qed.

Lemma fetch_failure_skips_url_witness :
  exists st2,
    process_url Scenario.web_without_b Scenario.api_up Scenario.url_b initial
    = (st2, inr tt)
    /\ original_scores st2 = original_scores initial
    /\ improved_scores st2 = improved_scores initial
    /\ improved_docs st2 = improved_docs initial
    /\ for_each [Scenario.url_b; Scenario.url_c]
         (process_url Scenario.web_without_b Scenario.api_up) initial
       = for_each [Scenario.url_c]
           (process_url Scenario.web_without_b Scenario.api_up) st2.
Proof.
  apply (@fetch_failure_skips_url Scenario.web_without_b Scenario.api_up
           Scenario.url_b [Scenario.url_c] initial
           (fst (fetch_content Scenario.web_without_b Scenario.url_b initial))
           (RequestException (lit "404 Client Error"))).
  vm_compute. reflexivity.
Defined.

Lemma improved_score_of_improvement_text_witness :
  exists st',
    process_url Scenario.web_up Scenario.api_up Scenario.url_a initial
    = (st', inr tt)
    /\ improved_scores st'
       = improved_scores initial
           ++ [compute_readability (completion_text (Some Scenario.advice))]
    /\ improved_docs st'
       = improved_docs initial
           ++ [enhanced_doc (completion_text (Some Scenario.advice))
                 (completion_text (Some Scenario.advice))].
Proof.
  apply (proj1 (improved_score_of_improvement_text
                  Scenario.web_up Scenario.api_up)
           Scenario.url_a initial Scenario.page
           (Some Scenario.advice) (Some Scenario.advice));
    reflexivity.
Defined.

Lemma enhanced_doc_layout_witness :
  exists st',
    process_url Scenario.web_up Scenario.api_up Scenario.url_a initial
    = (st', inr tt)
    /\ improved_docs st'
       = improved_docs initial
           ++ [enhanced_doc (completion_text (Some Scenario.advice))
                 (completion_text (Some Scenario.advice))].
Proof.
  apply (proj2 enhanced_doc_layout Scenario.web_up Scenario.api_up
           Scenario.url_a initial Scenario.page
           (Some Scenario.advice) (Some Scenario.advice));
    reflexivity.
Defined.

Lemma documents_match_improved_scores_witness :
  length
    (improved_docs
       (fst (process_documentation Scenario.web_without_b Scenario.api_up
               Scenario.disk_ok
               [Scenario.url_a; Scenario.url_b; Scenario.url_c] initial)))
  = length
      (improved_scores
         (fst (process_documentation Scenario.web_without_b Scenario.api_up
                 Scenario.disk_ok
                 [Scenario.url_a; Scenario.url_b; Scenario.url_c] initial))).
Proof.
  apply (proj2 (documents_match_improved_scores
                  Scenario.web_without_b Scenario.api_up Scenario.disk_ok)
           [Scenario.url_a; Scenario.url_b; Scenario.url_c] _
           (snd (process_documentation Scenario.web_without_b Scenario.api_up
                   Scenario.disk_ok
                   [Scenario.url_a; Scenario.url_b; Scenario.url_c] initial))).
  apply surjective_pairing.
Defined.

Lemma logged_metric_is_mean_squared_difference_witness :
  logged_metrics
    (log (fst (process_documentation Scenario.web_without_b Scenario.api_up
                 Scenario.disk_ok
                 [Scenario.url_a; Scenario.url_b; Scenario.url_c] initial)))
  = [mean_of_squared_differences [(8 # 2)%Q; (8 # 2)%Q] [(5 # 2)%Q; (5 # 2)%Q]].
Proof.
  apply (@logged_metric_is_mean_squared_difference
           Scenario.web_without_b Scenario.api_up Scenario.disk_ok
           [Scenario.url_a; Scenario.url_b; Scenario.url_c] _
           (snd (process_documentation Scenario.web_without_b Scenario.api_up
                   Scenario.disk_ok
                   [Scenario.url_a; Scenario.url_b; Scenario.url_c] initial))).
  - apply surjective_pairing.
  - vm_compute. reflexivity.
  - vm_compute. discriminate.
  - vm_compute. reflexivity.
  - vm_compute. reflexivity.
Defined.

(** C3 as stated fails when an improvement text has no sentence: one
    URL is fetched and both completions return without completion field;
    the two score lists have length 1, the improved score is NaN, the
    metric raises and nothing is logged. *)
Lemma no_metric_logged_for_nan_score :
  original_scores (fst Scenario.run_no_completion) = [Fin (8 # 2)%Q]
  /\ improved_scores (fst Scenario.run_no_completion) = [NaN]
  /\ ~ metric_logged_as_mean (fst Scenario.run_no_completion).
Proof.
  assert (Ho : original_scores (fst Scenario.run_no_completion)
               = [Fin (8 # 2)%Q]) by (vm_compute; reflexivity).
  assert (Hi : improved_scores (fst Scenario.run_no_completion) = [NaN])
    by (vm_compute; reflexivity).
  assert (Hl : logged_metrics (log (fst Scenario.run_no_completion)) = [])
    by (vm_compute; reflexivity).
  repeat apply conj; try assumption.
  unfold metric_logged_as_mean. rewrite Ho, Hi, Hl. intros H.
  destruct H as [mse [[] _]]; [reflexivity | discriminate].
Qed.

Lemma save_to_file_swallows_errors_witness :
  In (doc_filename (1 + 1), Scenario.page)
    (disk
       (fst (save_results (Scenario.disk_failing_at 0)
               [Scenario.advice; Scenario.page] initial)))
  /\ In (SavedContent (doc_filename (1 + 1)))
       (log
          (fst (save_results (Scenario.disk_failing_at 0)
                  [Scenario.advice; Scenario.page] initial)))
  /\ In (SaveFailed (doc_filename (0 + 1))
           (OSError (lit "No space left on device")))
       (log
          (fst (save_results (Scenario.disk_failing_at 0)
                  [Scenario.advice; Scenario.page] initial))).
Proof.
  destruct (proj2 (save_to_file_swallows_errors (Scenario.disk_failing_at 0))
              [Scenario.advice; Scenario.page] initial)
    as [st' [Hrun [_ [_ [_ Hdocs]]]]].
  rewrite Hrun. cbn [fst].
  pose proof (Hdocs 1 Scenario.page eq_refl) as H1.
  pose proof (Hdocs 0 Scenario.advice eq_refl) as H0.
  cbn [initial clock Nat.add Scenario.disk_failing_at Nat.eqb] in H0, H1.
  destruct H1 as [Hd Hl]. auto.
Defined.

(** * Further properties of the code *)

(** ** The readability score *)

Lemma filter_nil_iff (A : Type) (p : A -> bool) (l : list A) :
  filter p l = [] <-> Forall (fun x => p x = false) l.
Proof.
  induction l as [|x l IH]; simpl.
  - split; [constructor | reflexivity].
  - destruct (p x) eqn:Hp; split.
    + discriminate.
    + intros H. inversion H; congruence.
    + intros H. constructor; [assumption | now apply IH].
    + intros H. inversion H. now apply IH.
Qed.

Lemma split_ws_from_nil_iff cur s :
  split_ws_from cur s = [] <-> cur = [] /\ forallb isspace s = true.
Proof.
  revert cur. induction s as [|c s IH]; intros cur; simpl.
  - destruct cur; simpl; split; try tauto; try discriminate.
    intros [H _]. discriminate.
  - destruct (isspace c) eqn:Hc; simpl.
    + destruct cur as [|d cur]; simpl.
      * rewrite IH. tauto.
      * split; [discriminate|]. intros [H _]. discriminate.
    + rewrite IH. split; [intros [H _]; discriminate | intros [_ H]; discriminate].
Qed.

Lemma strip_empty_iff s : truthy (strip s) = false <-> forallb isspace s = true.
Proof.
  rewrite truthy_strip. unfold split_ws.
  pose proof (split_ws_from_nil_iff [] s) as Hnil.
  destruct (split_ws_from [] s) as [|w ws]; simpl.
  - split; [intros _; now apply Hnil | reflexivity].
  - split; [discriminate|]. intros H.
    assert (Hw : w :: ws = []) by (apply Hnil; auto). discriminate.
Qed.

Lemma split_from_all_blank cur s :
  Forall (fun seg => forallb isspace seg = true) (split_from period cur s)
  <-> forallb isspace (rev cur) = true /\ forallb is_blank s = true.
Proof.
  revert cur. induction s as [|c s IH]; intros cur; simpl.
  - split.
    + intros H. inversion H. auto.
    + intros [H _]. constructor; [assumption | constructor].
  - unfold is_blank at 1. destruct (N.eqb_spec c period) as [->|Hne].
    + rewrite orb_true_r. simpl. split.
      * intros H. inversion H as [|? ? H1 H2]; subst.
        apply IH in H2 as [_ H2]. auto.
      * intros [H1 H2]. constructor; [assumption|]. apply IH. auto.
    + rewrite orb_false_r, IH. simpl. rewrite forallb_app. simpl.
      rewrite andb_true_r, !andb_true_iff. tauto.
Qed.

(** The score is NaN exactly on the texts made of whitespace and periods
    only. *)
Theorem readability_nan_iff content :
  compute_readability content = NaN <-> forallb is_blank content = true.
Proof.
  unfold compute_readability, sentences, split.
  assert (Hnil :
            filter (fun s => truthy (strip s)) (split_from period [] content) = []
            <-> forallb is_blank content = true).
  { rewrite filter_nil_iff.
    transitivity (Forall (fun seg => forallb isspace seg = true)
                    (split_from period [] content)).
    - rewrite !Forall_forall. split; intros H seg Hin;
        apply strip_empty_iff; now apply H.
    - rewrite split_from_all_blank. simpl. tauto. }
  destruct (filter (fun s => truthy (strip s)) (split_from period [] content))
    as [|seg segs] eqn:E; simpl.
  - split; [intros _; now apply Hnil | reflexivity].
  - split; [discriminate|]. intros H. apply Hnil in H. discriminate.
Qed.

Lemma sentence_has_word content sentence :
  In sentence (sentences content) -> 1 <= length (split_ws sentence).
Proof.
  unfold sentences. rewrite in_map_iff. intros [seg [<- Hin]].
  apply filter_In in Hin as [_ Hseg]. rewrite truthy_strip in Hseg.
  rewrite split_ws_strip.
  destruct (length (split_ws seg)); [discriminate | lia].
Qed.

Lemma list_sum_at_least (l : list nat) :
  Forall (fun n => 1 <= n) l -> length l <= list_sum l.
Proof.
  induction 1 as [|n l Hn _ IH]; simpl; lia.
Qed.

(** A score that is a number is at least 1: every sentence counted has
    a word. *)
Theorem readability_at_least_one content q :
  compute_readability content = Fin q -> (1 <= q)%Q.
Proof.
  unfold compute_readability. fold (sentence_lengths content).
  assert (Hall : Forall (fun n => 1 <= n) (sentence_lengths content)).
  { unfold sentence_lengths. rewrite Forall_forall. intros n Hn.
    apply in_map_iff in Hn as [sentence [<- Hin]].
    now apply sentence_has_word in Hin. }
  apply list_sum_at_least in Hall.
  destruct (sentence_lengths content) as [|n l] eqn:E; [discriminate|].
  cbn [np_mean]. intros H. injection H as <-.
  unfold Qle. cbn [Qnum Qden]. rewrite Z.mul_1_l, Z.mul_1_r.
  change (Z.pos (Pos.of_nat (length (n :: l))) <= Z.of_nat (list_sum (n :: l)))%Z.
  rewrite <- (positive_nat_Z (Pos.of_nat (length (n :: l)))).
  rewrite Nat2Pos.id by discriminate.
  now apply Nat2Z.inj_le.
Qed.

Lemma readability_at_least_one_witness : (1 <= 5 # 2)%Q.
Proof.
  apply (@readability_at_least_one (lit "Hello big world. Bye now. ")).
  reflexivity.
Defined.

Lemma split_from_concat sep cur a b :
  split_from sep cur (a ++ sep :: b)
  = split_from sep cur a ++ split_from sep [] b.
Proof.
  revert cur. induction a as [|c a IH]; intros cur; simpl.
  - now rewrite N.eqb_refl.
  - destruct (c =? sep)%N; simpl; now rewrite IH.
Qed.

(** Two texts joined by a period have the sentences of the first
    followed by those of the second, so the score of the whole is the
    mean over both lists of word counts; in particular a period put
    before or after a text does not change its score. *)
Theorem readability_of_joined_texts a b :
  sentence_lengths (a ++ period :: b) = sentence_lengths a ++ sentence_lengths b
  /\ compute_readability (a ++ period :: b)
     = np_mean (sentence_lengths a ++ sentence_lengths b)
  /\ compute_readability (a ++ [period]) = compute_readability a
  /\ compute_readability (period :: a) = compute_readability a.
Proof.
  assert (H : forall x y,
             sentence_lengths (x ++ period :: y)
             = sentence_lengths x ++ sentence_lengths y).
  { intros x y. unfold sentence_lengths, sentences, split.
    now rewrite split_from_concat, filter_app, !map_app. }
  assert (Hnil : sentence_lengths [] = []) by reflexivity.
  split; [apply H|]. split; [|split].
  - change (np_mean (sentence_lengths (a ++ period :: b))
            = np_mean (sentence_lengths a ++ sentence_lengths b)).
    now rewrite H.
  - change (np_mean (sentence_lengths (a ++ [period]))
            = np_mean (sentence_lengths a)).
    now rewrite H, Hnil, app_nil_r.
  - change (np_mean (sentence_lengths ([] ++ period :: a))
            = np_mean (sentence_lengths a)).
    now rewrite H, Hnil.
Qed.

(** The word counts of the sentences, read off the segments directly:
    count the words of every segment and drop the zeros. *)
Lemma sentence_lengths_of_segments content :
  sentence_lengths content
  = filter (fun n => negb (n =? 0))
      (map (fun seg => length (split_ws seg)) (split period content)).
Proof.
  unfold sentence_lengths, sentences.
  induction (split period content) as [|seg segs IH]; [reflexivity|].
  cbn [filter map]. rewrite truthy_strip.
  destruct (negb (length (split_ws seg) =? 0)); cbn [map]; rewrite IH;
    [now rewrite split_ws_strip | reflexivity].
Qed.

Lemma space_is_not_period c : isspace c = true -> (c =? period)%N = false.
Proof.
  intros Hc. destruct (N.eqb_spec c period) as [->|]; [discriminate|reflexivity].
Qed.

Lemma split_from_leading_spaces cur t x :
  forallb isspace t = true ->
  split_from period cur (t ++ x) = split_from period (rev t ++ cur) x.
Proof.
  revert cur. induction t as [|c t IH]; intros cur Ht; [reflexivity|].
  cbn [forallb] in Ht. apply andb_true_iff in Ht as [Hc Ht].
  cbn [app split_from]. rewrite (space_is_not_period c Hc), IH by assumption.
  cbn [rev]. now rewrite <- app_assoc.
Qed.

Lemma map_split_from_prefix (B : Type) (f : str -> B) cur1 cur2 x :
  (forall y, f (rev cur2 ++ y) = f (rev cur1 ++ y)) ->
  map f (split_from period cur2 x) = map f (split_from period cur1 x).
Proof.
  revert cur1 cur2. induction x as [|c x IH]; intros cur1 cur2 H.
  - cbn [split_from map]. f_equal. specialize (H []). now rewrite !app_nil_r in H.
  - cbn [split_from]. destruct (c =? period)%N.
    + cbn [map]. f_equal. specialize (H []). now rewrite !app_nil_r in H.
    + apply IH. intros y. cbn [rev]. rewrite <- !app_assoc. apply H.
Qed.

Lemma map_split_from_suffix (B : Type) (f : str -> B) cur x t :
  forallb isspace t = true ->
  (forall y, f (y ++ t) = f y) ->
  map f (split_from period cur (x ++ t)) = map f (split_from period cur x).
Proof.
  intros Ht H. revert cur. induction x as [|c x IH]; intros cur.
  - cbn [app]. rewrite split_from_absent.
    + cbn [split_from map]. now rewrite H.
    + intros Hin. rewrite forallb_forall in Ht. now apply Ht in Hin.
  - cbn [app split_from]. destruct (c =? period)%N; cbn [map]; now rewrite IH.
Qed.

(** Whitespace around a text does not change its score; in particular
    the score of a text is the score of its [strip()]. *)
Theorem readability_ignores_surrounding_whitespace content :
  (forall before after,
      forallb isspace before = true -> forallb isspace after = true ->
      compute_readability (before ++ content ++ after)
      = compute_readability content)
  /\ compute_readability (strip content) = compute_readability content.
Proof.
  assert (H : forall x before after,
             forallb isspace before = true -> forallb isspace after = true ->
             compute_readability (before ++ x ++ after) = compute_readability x).
  { intros x before after Hb Ha.
    change (np_mean (sentence_lengths (before ++ x ++ after))
            = np_mean (sentence_lengths x)).
    rewrite !sentence_lengths_of_segments. do 2 f_equal. unfold split.
    rewrite split_from_leading_spaces by assumption.
    rewrite map_split_from_suffix;
      [| assumption
       | intros y; unfold split_ws; now rewrite split_ws_from_trailing].
    apply map_split_from_prefix. intros y. rewrite app_nil_r, rev_involutive.
    cbn [rev app]. unfold split_ws. now rewrite split_ws_leading. }
  split; [apply H|].
  destruct (lstrip_decompose content) as [t1 [H1 Ht1]].
  destruct (rstrip_decompose (lstrip content)) as [t2 [H2 Ht2]].
  fold (strip content) in H2.
  rewrite H1 at 2. rewrite H2. symmetry. now apply H.
Qed.

Lemma readability_ignores_surrounding_whitespace_witness :
  compute_readability (lit "  " ++ lit "One two. Three." ++ nl)
  = compute_readability (lit "One two. Three.").
Proof.
  apply (proj1 (readability_ignores_surrounding_whitespace
                  (lit "One two. Three."))); reflexivity.
Defined.

(** ** Prompts *)

(** A prompt never carries more than [MAX_CONTENT_LENGTH] characters of
    content: its length is that of the template plus the smaller of the
    content length and [MAX_CONTENT_LENGTH]. *)
Theorem prompt_length_bounded content :
  length (analyze_prompt content)
  = 175 + Nat.min MAX_CONTENT_LENGTH (length content)
  /\ length (visuals_prompt content)
     = 114 + Nat.min MAX_CONTENT_LENGTH (length content)
  /\ length (analyze_prompt content) <= 175 + MAX_CONTENT_LENGTH
  /\ length (visuals_prompt content) <= 114 + MAX_CONTENT_LENGTH.
Proof.
  assert (Ha : length (analyze_prompt content)
               = 175 + Nat.min MAX_CONTENT_LENGTH (length content)).
  { unfold analyze_prompt. rewrite !length_app, length_firstn.
    change (length analyze_head) with 87. change (length analyze_tail) with 88.
    lia. }
  assert (Hv : length (visuals_prompt content)
               = 114 + Nat.min MAX_CONTENT_LENGTH (length content)).
  { unfold visuals_prompt. rewrite !length_app, length_firstn.
    change (length visuals_head) with 101. change (length visuals_tail) with 13.
    lia. }
  repeat apply conj; try assumption; lia.
Qed.

(** What follows the first [MAX_CONTENT_LENGTH] characters of a page has
    no influence on what is asked of the endpoint: two pages that agree
    on these characters lead, for the same endpoint, to the same
    enhanced document and the same improved score. *)
Theorem truncated_tail_has_no_influence
  (http_get1 http_get2 : nat -> str -> exn + str) completion
  url st content1 content2 :
  http_get1 (clock st) url = inr content1 ->
  http_get2 (clock st) url = inr content2 ->
  firstn MAX_CONTENT_LENGTH content1 = firstn MAX_CONTENT_LENGTH content2 ->
  improved_docs (fst (process_url http_get1 completion url st))
  = improved_docs (fst (process_url http_get2 completion url st))
  /\ improved_scores (fst (process_url http_get1 completion url st))
     = improved_scores (fst (process_url http_get2 completion url st)).
Proof.
  intros H1 H2 Hcut.
  assert (Ha : analyze_prompt content1 = analyze_prompt content2)
    by (unfold analyze_prompt; now rewrite Hcut).
  assert (Hv : visuals_prompt content1 = visuals_prompt content2)
    by (unfold visuals_prompt; now rewrite Hcut).
  destruct (process_url_cases http_get1 completion url st)
    as [st1 [-> [_ [_ [[[e He] _] | [c1 [Hc1 [_ Hrest1]]]]]]]]; [congruence|].
  destruct (process_url_cases http_get2 completion url st)
    as [st2 [-> [_ [_ [[[e He] _] | [c2 [Hc2 [_ Hrest2]]]]]]]]; [congruence|].
  assert (c1 = content1) as -> by congruence.
  assert (c2 = content2) as -> by congruence.
  rewrite Ha, Hv in Hrest1. cbn [fst].
  destruct Hrest1 as [[Hi1 [Hd1 Hf1]] | [r1 [r2 [Hr1 [Hr2 [Hi1 Hd1]]]]]];
    destruct Hrest2 as [[Hi2 [Hd2 Hf2]] | [r1' [r2' [Hr1' [Hr2' [Hi2 Hd2]]]]]].
  - split; congruence.
  - exfalso. destruct Hf1 as [[e He] | [e He]]; congruence.
  - exfalso. destruct Hf2 as [[e He] | [e He]]; congruence.
  - assert (r1' = r1) as -> by congruence.
    assert (r2' = r2) as -> by congruence.
    split; congruence.
Qed.

Lemma truncated_tail_has_no_influence_witness :
  improved_docs
    (fst (process_url Scenario.web_long Scenario.api_up Scenario.url_a initial))
  = improved_docs
      (fst (process_url Scenario.web_longer Scenario.api_up Scenario.url_a
              initial)).
Proof.
  apply (@truncated_tail_has_no_influence
           Scenario.web_long Scenario.web_longer Scenario.api_up
           Scenario.url_a initial
           Scenario.long_page
           (Scenario.long_page ++ lit " And one more sentence.")).
  - reflexivity.
  - reflexivity.
  - vm_compute. reflexivity.
Defined.

(** ** File names *)

Lemma lit_injective s1 s2 : lit s1 = lit s2 -> s1 = s2.
Proof.
  unfold lit. intros H.
  rewrite <- (string_of_list_ascii_of_string s1).
  rewrite <- (string_of_list_ascii_of_string s2). f_equal.
  revert H. generalize (list_ascii_of_string s1) (list_ascii_of_string s2).
  induction l as [|a l IH]; intros [|b l'] H; try discriminate; [reflexivity|].
  cbn [map] in H. injection H as Hab Hl. f_equal.
  - rewrite <- (ascii_N_embedding a), <- (ascii_N_embedding b). now f_equal.
  - now apply IH.
Qed.

Lemma of_nat_injective i j : of_nat i = of_nat j -> i = j.
Proof.
  unfold of_nat. intros H. apply lit_injective in H.
  assert (Hu : Some (Nat.to_uint i) = Some (Nat.to_uint j)).
  { rewrite <- !NilEmpty.usu. now rewrite H. }
  injection Hu as Hu.
  rewrite <- (Unsigned.of_to i), <- (Unsigned.of_to j). now f_equal.
Qed.

(** Distinct positions give distinct file names: the documents of a run
    never overwrite each other. *)
Theorem doc_filename_injective i j : doc_filename i = doc_filename j -> i = j.
Proof.
  unfold doc_filename. intros H.
  apply app_inv_head in H. apply app_inv_tail in H.
  now apply of_nat_injective.
Qed.

Lemma doc_filename_injective_witness : 12 = 12.
Proof. apply doc_filename_injective. reflexivity. Defined.

(** ** Bookkeeping of a run: scores, calls and log lines *)

Lemma count_processing_errors_app l l' :
  count_processing_errors (l ++ l')
  = count_processing_errors l + count_processing_errors l'.
Proof.
  induction l as [|r l IH]; [reflexivity|].
  destruct r; simpl; now rewrite IH.
Qed.

Ltac tidy_counts :=
  rewrite ?count_processing_errors_app, ?write_attempts_app, ?length_app;
  cbn [count_processing_errors write_attempts length app];
  rewrite ?app_nil_r.

Section Bookkeeping.

Variable http_get : nat -> str -> exn + str.
Variable completion : nat -> str -> list str -> str -> nat -> exn + option str.
Variable write_file : nat -> str -> str -> option exn.

(** What one iteration does to the lists, the clock and the log. *)
Lemma process_url_bookkeeping url st :
  exists st' a b,
    process_url http_get completion url st = (st', inr tt)
    /\ original_scores st' = original_scores st ++ a
    /\ improved_scores st' = improved_scores st ++ b
    /\ length b <= length a <= 1
    /\ write_attempts (log st') = write_attempts (log st)
    /\ clock st < clock st' <= clock st + 3
    /\ count_processing_errors (log st') + length (improved_docs st')
       = S (count_processing_errors (log st) + length (improved_docs st)).
Proof.
  destruct st as [c lg dk os ips ds]. run_pipeline.
  destruct (http_get c url) as [e|content].
  - exists (mkState (S c)
              (lg ++ match e with
                     | RequestException _ => [FetchFailed url e]
                     | _ => []
                     end ++ [ProcessingError url e])
              dk os ips ds), [], [].
    destruct e; (split; [now rewrite <- ?app_assoc|]); run_pipeline;
      tidy_counts; repeat apply conj; auto; lia.
  - destruct (completion (S c) (analyze_prompt content) [nl ++ nl]
                ANTHROPIC_MODEL 2000) as [e1|r1].
    + eexists; exists [compute_readability content], [].
      split; [reflexivity|]. run_pipeline. tidy_counts.
      repeat apply conj; auto; lia.
    + destruct (completion (S (S c)) (visuals_prompt content) [nl ++ nl]
                  ANTHROPIC_MODEL 2000) as [e2|r2].
      * eexists; exists [compute_readability content], [].
        split; [reflexivity|]. run_pipeline. tidy_counts.
        repeat apply conj; auto; lia.
      * eexists;
          exists [compute_readability content],
                 [compute_readability (completion_text r1)].
        split; [reflexivity|]. run_pipeline. tidy_counts.
        repeat apply conj; auto; lia.
Qed.

Lemma process_urls_bookkeeping urls st :
  exists st' a b,
    for_each urls (process_url http_get completion) st = (st', inr tt)
    /\ original_scores st' = original_scores st ++ a
    /\ improved_scores st' = improved_scores st ++ b
    /\ length b <= length a <= length urls
    /\ write_attempts (log st') = write_attempts (log st)
    /\ clock st + length urls <= clock st' <= clock st + 3 * length urls
    /\ count_processing_errors (log st') + length (improved_docs st')
       = count_processing_errors (log st) + length (improved_docs st)
         + length urls.
Proof.
  revert st. induction urls as [|url urls IH]; intros st.
  - exists st, [], []. rewrite !app_nil_r. cbn [length].
    repeat apply conj; auto; lia.
  - destruct (process_url_bookkeeping url st)
      as [st1 [a1 [b1 [Hrun [Ho [Hi [Hlen [Hw [Hc Hn]]]]]]]]].
    destruct (IH st1) as [st2 [a2 [b2 [Hrun2 [Ho2 [Hi2 [Hlen2 [Hw2 [Hc2 Hn2]]]]]]]]].
    exists st2, (a1 ++ a2), (b1 ++ b2).
    cbn [for_each]. unfold bind at 1. rewrite Hrun.
    rewrite Ho2, Ho, Hi2, Hi, <- !app_assoc, !length_app. cbn [length].
    repeat apply conj; auto; try congruence; lia.
Qed.

Lemma save_to_file_bookkeeping filename content st :
  exists st',
    save_to_file write_file filename content st = (st', inr tt)
    /\ clock st' = S (clock st)
    /\ count_processing_errors (log st') = count_processing_errors (log st)
    /\ disk st'
       = disk st
           ++ match write_file (clock st) filename content with
              | None => [(filename, content)]
              | Some _ => []
              end.
Proof.
  destruct st as [c lg dk os ips ds]. run_pipeline.
  destruct (write_file c filename content) as [e|];
    (eexists; split; [reflexivity|]); run_pipeline; tidy_counts;
    repeat apply conj; auto.
Qed.

Lemma save_from_bookkeeping i docs st :
  exists st',
    for_each (enumerate_from i docs)
      (fun id => save_to_file write_file (doc_filename (fst id + 1)) (snd id)) st
    = (st', inr tt)
    /\ clock st' = clock st + length docs
    /\ count_processing_errors (log st') = count_processing_errors (log st)
    /\ ((forall t f c, write_file t f c = None) ->
        disk st'
        = disk st
            ++ map (fun id => (doc_filename (fst id + 1), snd id))
                 (enumerate_from i docs)).
Proof.
  revert i st. induction docs as [|doc docs IH]; intros i st.
  - exists st. cbn [enumerate_from for_each length map]. rewrite app_nil_r.
    repeat apply conj; auto.
  - destruct (save_to_file_bookkeeping (doc_filename (i + 1)) doc st)
      as [st1 [Hrun [Hc [Hn Hd]]]].
    destruct (IH (S i) st1) as [st2 [Hrun2 [Hc2 [Hn2 Hd2]]]].
    exists st2. cbn [enumerate_from for_each fst snd]. unfold bind at 1.
    rewrite Hrun. split; [assumption|]. cbn [length].
    split; [lia|]. split; [congruence|].
    intros Hok. rewrite (Hd2 Hok), Hd, Hok. cbn [map fst snd].
    now rewrite <- app_assoc.
Qed.

Lemma compute_error_metrics_bookkeeping st :
  match mean_squared_error (original_scores st) (improved_scores st) with
  | inl e => compute_error_metrics st = (st, inl e)
  | inr mse =>
      exists st',
        compute_error_metrics st = (st', inr tt)
        /\ accumulators st' = accumulators st
        /\ disk st' = disk st
        /\ clock st' = clock st
        /\ write_attempts (log st') = write_attempts (log st)
        /\ count_processing_errors (log st') = count_processing_errors (log st)
  end.
Proof.
  destruct st as [c lg dk os ips ds]. run_pipeline.
  destruct (mean_squared_error os ips) as [e|mse]; [reflexivity|].
  eexists. split; [reflexivity|]. run_pipeline. tidy_counts.
  rewrite ?Nat.add_0_r. repeat apply conj; auto.
Qed.

(** The state [st1] at the end of the loop of a run, and what follows
    it. *)
Lemma process_documentation_bookkeeping urls :
  exists st1,
    length (improved_scores st1) <= length (original_scores st1) <= length urls
    /\ length urls <= clock st1 <= 3 * length urls
    /\ count_processing_errors (log st1) + length (improved_docs st1)
       = length urls
    /\ disk st1 = []
    /\ write_attempts (log st1) = []
    /\ match mean_squared_error (original_scores st1) (improved_scores st1) with
       | inl e =>
           process_documentation http_get completion write_file urls initial
           = (st1, inl e)
       | inr mse =>
           exists st2,
             process_documentation http_get completion write_file urls initial
             = (st2, inr tt)
             /\ accumulators st2 = accumulators st1
             /\ clock st2 = clock st1 + length (improved_docs st1)
             /\ count_processing_errors (log st2)
                = count_processing_errors (log st1)
             /\ map fst (write_attempts (log st2))
                = map (fun k => doc_filename (k + 1))
                    (seq 0 (length (improved_docs st1)))
             /\ ((forall t f c, write_file t f c = None) ->
                 disk st2
                 = map (fun id => (doc_filename (fst id + 1), snd id))
                     (enumerate (improved_docs st1)))
       end.
Proof.
  destruct (process_urls_bookkeeping urls initial)
    as [st1 [a [b [Hloop [Ho [Hi [Hlen [Hw [Hc Hn]]]]]]]]].
  destruct (process_urls_run http_get completion urls initial)
    as [st1' [Hloop' [Hdisk _]]].
  rewrite Hloop in Hloop'. injection Hloop' as <-.
  cbn [initial original_scores improved_scores improved_docs clock log
       count_processing_errors write_attempts length app Nat.add] in *.
  exists st1. rewrite Ho, Hi.
  split; [exact Hlen|]. split; [exact Hc|]. split; [exact Hn|].
  split; [exact Hdisk|]. split; [exact Hw|].
  rewrite <- Ho, <- Hi.
  assert (Hpd :
            process_documentation http_get completion write_file urls initial
            = let (st', s) := compute_error_metrics st1 in
              match s with
              | inl e => (st', inl e)
              | inr _ => save_results write_file (improved_docs st') st'
              end).
  { unfold process_documentation. unfold bind at 1.
    change (new_accumulators initial) with (initial, @inr exn unit tt).
    cbv beta iota. unfold bind at 1. rewrite Hloop. reflexivity. }
  rewrite Hpd. clear Hpd.
  pose proof (compute_error_metrics_bookkeeping st1) as Hmse.
  destruct (mean_squared_error (original_scores st1) (improved_scores st1))
    as [e|mse].
  - now rewrite Hmse.
  - destruct Hmse as [st1' [Hrun [Hacc [Hdisk' [Hclock [Hw' Hn']]]]]].
    rewrite Hrun.
    assert (Hdocs : improved_docs st1' = improved_docs st1).
    { unfold accumulators in Hacc. now injection Hacc. }
    destruct (save_from_run write_file 0 (improved_docs st1') st1')
      as [st2 [Hsave [Hacc2 [_ [Hatt _]]]]].
    destruct (save_from_bookkeeping 0 (improved_docs st1') st1')
      as [st2' [Hsave' [Hclock2 [Hn2 Hdisk2]]]].
    rewrite Hsave in Hsave'. injection Hsave' as <-.
    exists st2. unfold save_results, enumerate. rewrite Hsave.
    split; [reflexivity|]. split; [congruence|].
    split; [rewrite Hclock2, Hclock, Hdocs; reflexivity|].
    split; [congruence|].
    split; [rewrite Hatt, Hw', Hw, Hdocs; reflexivity|].
    intros Hok. rewrite (Hdisk2 Hok), Hdisk', Hdisk, Hdocs. reflexivity.
Qed.

End Bookkeeping.

(** ** When the metric raises *)

Lemma mean_squared_error_returns_iff y_true y_pred :
  (exists mse, mean_squared_error y_true y_pred = inr mse)
  <-> length y_true = length y_pred /\ y_true <> []
      /\ ~ In NaN y_true /\ ~ In NaN y_pred.
Proof.
  split.
  - intros [mse H]. apply mean_squared_error_returns in H
      as [a [b [Ha [Hb [Hlen [Hne _]]]]]].
    repeat apply conj; try assumption; intros Hin;
      apply finite_values_none_iff in Hin; congruence.
  - intros [Hlen [Hne [Ht Hp]]].
    destruct (finite_values y_true) as [a|] eqn:Ha;
      [|exfalso; apply Ht; now apply finite_values_none_iff].
    destruct (finite_values y_pred) as [b|] eqn:Hb;
      [|exfalso; apply Hp; now apply finite_values_none_iff].
    eexists. now apply (@mean_squared_error_defined y_true y_pred a b).
Qed.

Lemma for_each_app (A : Type) (l1 l2 : list A) (body : A -> M unit) st :
  for_each (l1 ++ l2) body st
  = match for_each l1 body st with
    | (st1, inr _) => for_each l2 body st1
    | (st1, inl e) => (st1, inl e)
    end.
Proof.
  revert st. induction l1 as [|x l1 IH]; intros st; [reflexivity|].
  cbn [app for_each]. unfold bind.
  destruct (body x st) as [st1 [e|[]]]; [reflexivity|]. apply IH.
Qed.

Section Runs.

Variable http_get : nat -> str -> exn + str.
Variable completion : nat -> str -> list str -> str -> nat -> exn + option str.
Variable write_file : nat -> str -> str -> option exn.

Let run (urls : list str) : state * (exn + unit) :=
  process_documentation http_get completion write_file urls initial.

(** At the end of a run there is at most one original score per URL and
    at most one improved score per original score. *)
Theorem score_lists_bounded urls :
  length (improved_scores (fst (run urls)))
  <= length (original_scores (fst (run urls)))
  <= length urls.
Proof.
  unfold run.
  destruct (process_documentation_bookkeeping http_get completion write_file urls)
    as [st1 [Hlen [_ [_ [_ [_ Hend]]]]]].
  destruct (mean_squared_error (original_scores st1) (improved_scores st1)).
  - now rewrite Hend.
  - destruct Hend as [st2 [-> [Hacc _]]]. cbn [fst].
    unfold accumulators in Hacc. injection Hacc as -> -> _. exact Hlen.
Qed.

(** A run makes between one and three network calls per URL, and one
    file-system call per document when the metric does not raise. *)
Theorem external_calls_bounded urls :
  length urls <= clock (fst (run urls))
  <= 3 * length urls + length (improved_docs (fst (run urls))).
Proof.
  unfold run.
  destruct (process_documentation_bookkeeping http_get completion write_file urls)
    as [st1 [_ [Hc [_ [_ [_ Hend]]]]]].
  destruct (mean_squared_error (original_scores st1) (improved_scores st1)).
  - rewrite Hend. cbn [fst]. lia.
  - destruct Hend as [st2 [-> [Hacc [Hc2 _]]]]. cbn [fst].
    unfold accumulators in Hacc. injection Hacc as _ _ ->. lia.
Qed.

(** Every URL of a run either yields an enhanced document or leaves one
    "Error processing" line in the log. *)
Theorem every_url_accounted_for urls :
  count_processing_errors (log (fst (run urls)))
  + length (improved_docs (fst (run urls)))
  = length urls.
Proof.
  unfold run.
  destruct (process_documentation_bookkeeping http_get completion write_file urls)
    as [st1 [_ [_ [Hn [_ [_ Hend]]]]]].
  destruct (mean_squared_error (original_scores st1) (improved_scores st1)).
  - now rewrite Hend.
  - destruct Hend as [st2 [-> [Hacc [_ [Hn2 _]]]]]. cbn [fst].
    unfold accumulators in Hacc. injection Hacc as _ _ ->. congruence.
Qed.

(** A run returns normally exactly when the two score lists have the
    same non-zero length and hold no NaN. *)
Theorem run_completes_iff urls :
  snd (run urls) = inr tt
  <-> length (original_scores (fst (run urls)))
      = length (improved_scores (fst (run urls)))
      /\ original_scores (fst (run urls)) <> []
      /\ ~ In NaN (original_scores (fst (run urls)))
      /\ ~ In NaN (improved_scores (fst (run urls))).
Proof.
  unfold run.
  destruct (process_documentation_bookkeeping http_get completion write_file urls)
    as [st1 [_ [_ [_ [_ [_ Hend]]]]]].
  rewrite <- mean_squared_error_returns_iff.
  destruct (mean_squared_error (original_scores st1) (improved_scores st1))
    as [e|mse] eqn:Hmse.
  - rewrite Hend. cbn [fst snd]. rewrite Hmse. split; [discriminate|].
    intros [m H]. discriminate.
  - destruct Hend as [st2 [-> [Hacc _]]]. cbn [fst snd].
    unfold accumulators in Hacc. injection Hacc as -> -> _.
    rewrite Hmse. split; eauto.
Qed.

(** When a run raises, the exception is the [ValueError] of the metric;
    no metric has been logged and no file written or attempted, whatever
    documents the run has produced. *)
Theorem failed_run_saves_nothing urls e :
  snd (run urls) = inl e ->
  (exists detail, e = ValueError detail)
  /\ disk (fst (run urls)) = []
  /\ write_attempts (log (fst (run urls))) = []
  /\ logged_metrics (log (fst (run urls))) = [].
Proof.
  unfold run.
  destruct (process_documentation_bookkeeping http_get completion write_file urls)
    as [st1 [_ [_ [_ [Hd [Hw Hend]]]]]].
  destruct (process_documentation_run http_get completion write_file urls initial)
    as [st1' [_ [_ [_ [Hlog Hend']]]]].
  destruct (mean_squared_error (original_scores st1) (improved_scores st1))
    as [e'|mse] eqn:Hmse.
  - rewrite Hend in *. cbn [fst snd]. intros H. injection H as <-.
    destruct (mean_squared_error (original_scores st1') (improved_scores st1'))
      as [e''|mse']; [|destruct Hend' as [st2 [H _]]; discriminate].
    injection Hend' as <- _.
    split; [now apply mean_squared_error_value_error in Hmse|]. auto.
  - destruct Hend as [st2 [-> _]]. discriminate.
Qed.

(** When a run returns normally, it has tried to write every document
    once, in order, under [improved_doc_1.md], [improved_doc_2.md], ... *)
Theorem completed_run_attempts_every_document urls :
  snd (run urls) = inr tt ->
  map fst (write_attempts (log (fst (run urls))))
  = map (fun k => doc_filename (k + 1))
      (seq 0 (length (improved_docs (fst (run urls))))).
Proof.
  unfold run.
  destruct (process_documentation_bookkeeping http_get completion write_file urls)
    as [st1 [_ [_ [_ [_ [_ Hend]]]]]].
  destruct (mean_squared_error (original_scores st1) (improved_scores st1)).
  - rewrite Hend. discriminate.
  - destruct Hend as [st2 [-> [Hacc [_ [_ [Hatt _]]]]]]. cbn [fst snd].
    unfold accumulators in Hacc. injection Hacc as _ _ ->. intros _. exact Hatt.
Qed.

(** With a file system that accepts every write, a run that returns
    normally leaves exactly its documents on disk, in order, the [k]-th
    under [improved_doc_k.md]. *)
Theorem completed_run_saves_every_document urls :
  (forall t f c, write_file t f c = None) ->
  snd (run urls) = inr tt ->
  disk (fst (run urls))
  = map (fun id => (doc_filename (fst id + 1), snd id))
      (enumerate (improved_docs (fst (run urls)))).
Proof.
  unfold run. intros Hok.
  destruct (process_documentation_bookkeeping http_get completion write_file urls)
    as [st1 [_ [_ [_ [_ [_ Hend]]]]]].
  destruct (mean_squared_error (original_scores st1) (improved_scores st1)).
  - rewrite Hend. discriminate.
  - destruct Hend as [st2 [-> [Hacc [_ [_ [_ Hdisk]]]]]]. cbn [fst snd].
    unfold accumulators in Hacc. injection Hacc as _ _ ->. intros _.
    now apply Hdisk.
Qed.

End Runs.

Lemma failed_run_saves_nothing_witness :
  disk
    (fst (process_documentation Scenario.web_up (Scenario.api_up_until 4)
            Scenario.disk_ok [Scenario.url_a; Scenario.url_b] initial))
  = [].
Proof.
  apply (@failed_run_saves_nothing
           Scenario.web_up (Scenario.api_up_until 4) Scenario.disk_ok
           [Scenario.url_a; Scenario.url_b]
           (ValueError
              (lit "Found input variables with inconsistent numbers of samples"))).
  vm_compute. reflexivity.
Defined.

Lemma completed_run_attempts_every_document_witness :
  map fst
    (write_attempts
       (log (fst (process_documentation Scenario.web_without_b Scenario.api_up
                    Scenario.disk_full
                    [Scenario.url_a; Scenario.url_b; Scenario.url_c] initial))))
  = map (fun k => doc_filename (k + 1))
      (seq 0
         (length
            (improved_docs
               (fst (process_documentation Scenario.web_without_b
                       Scenario.api_up Scenario.disk_full
                       [Scenario.url_a; Scenario.url_b; Scenario.url_c]
                       initial))))).
Proof.
  apply (@completed_run_attempts_every_document
           Scenario.web_without_b Scenario.api_up Scenario.disk_full
           [Scenario.url_a; Scenario.url_b; Scenario.url_c]).
  vm_compute. reflexivity.
Defined.

Lemma completed_run_saves_every_document_witness :
  disk
    (fst (process_documentation Scenario.web_without_b Scenario.api_up
            Scenario.disk_ok
            [Scenario.url_a; Scenario.url_b; Scenario.url_c] initial))
  = map (fun id => (doc_filename (fst id + 1), snd id))
      (enumerate
         (improved_docs
            (fst (process_documentation Scenario.web_without_b Scenario.api_up
                    Scenario.disk_ok
                    [Scenario.url_a; Scenario.url_b; Scenario.url_c] initial)))).
Proof.
  apply (@completed_run_saves_every_document
           Scenario.web_without_b Scenario.api_up Scenario.disk_ok
           [Scenario.url_a; Scenario.url_b; Scenario.url_c]).
  - intros t f c. reflexivity.
  - vm_compute. reflexivity.
Defined.

Section Worlds.

Variable http_get : nat -> str -> exn + str.
Variable completion : nat -> str -> list str -> str -> nat -> exn + option str.
Variable write_file : nat -> str -> str -> option exn.

Lemma loop_without_failure urls st :
  (forall t url, exists content, http_get t url = inr content) ->
  (forall t prompt stop model n, exists r, completion t prompt stop model n = inr r) ->
  exists st',
    for_each urls (process_url http_get completion) st = (st', inr tt)
    /\ length (original_scores st') = length (original_scores st) + length urls
    /\ length (improved_scores st') = length (improved_scores st) + length urls
    /\ length (improved_docs st') = length (improved_docs st) + length urls.
Proof.
  intros Hweb Hapi. revert st. induction urls as [|url urls IH]; intros st.
  - exists st. cbn [for_each length]. repeat apply conj; auto.
  - destruct (process_url_cases http_get completion url st)
      as [st1 [Hrun [_ [_ Hcases]]]].
    destruct (IH st1) as [st2 [Hrun2 [Ho [Hi Hd]]]].
    exists st2. cbn [for_each]. unfold bind at 1. rewrite Hrun.
    split; [assumption|]. rewrite Ho, Hi, Hd. cbn [length].
    destruct Hcases as [[[e He] _] | [content [_ [Ho1 Hrest]]]].
    + destruct (Hweb (clock st) url) as [content Hc]. congruence.
    + destruct Hrest as [[_ [_ [[e He] | [e He]]]] | [r1 [r2 [_ [_ [Hi1 Hd1]]]]]].
      * destruct (Hapi (S (clock st)) (analyze_prompt content) [nl ++ nl]
                    ANTHROPIC_MODEL 2000) as [r Hr]. congruence.
      * destruct (Hapi (S (S (clock st))) (visuals_prompt content) [nl ++ nl]
                    ANTHROPIC_MODEL 2000) as [r Hr]. congruence.
      * rewrite Ho1, Hi1, Hd1, !length_app. cbn [length]. lia.
Qed.

(** When no fetch and no completion fails, a run of [N] URLs ends with
    [N] original scores, [N] improved scores and [N] documents. *)
Theorem run_without_failure urls :
  (forall t url, exists content, http_get t url = inr content) ->
  (forall t prompt stop model n, exists r, completion t prompt stop model n = inr r) ->
  let st := fst (process_documentation http_get completion write_file urls initial) in
  length (original_scores st) = length urls
  /\ length (improved_scores st) = length urls
  /\ length (improved_docs st) = length urls.
Proof.
  intros Hweb Hapi.
  destruct (loop_without_failure urls initial Hweb Hapi)
    as [st1 [Hloop [Ho [Hi Hd]]]].
  destruct (process_documentation_run http_get completion write_file urls initial)
    as [st1' [Hloop' [_ [_ [_ Hend]]]]].
  change (fst (new_accumulators initial)) with initial in Hloop'.
  rewrite Hloop in Hloop'. injection Hloop' as <-.
  cbn [initial original_scores improved_scores improved_docs length Nat.add] in *.
  destruct (mean_squared_error (original_scores st1) (improved_scores st1)).
  - rewrite Hend. cbn [fst]. auto.
  - destruct Hend as [st2 [-> [Hacc _]]]. cbn [fst].
    unfold accumulators in Hacc. injection Hacc as -> -> ->. auto.
Qed.

Lemma loop_of_failed_fetches urls st :
  (forall url, In url urls -> forall t, exists e, http_get t url = inl e) ->
  exists st',
    for_each urls (process_url http_get completion) st = (st', inr tt)
    /\ accumulators st' = accumulators st.
Proof.
  revert st. induction urls as [|url urls IH]; intros st Hdown.
  - exists st. auto.
  - destruct (process_url_cases http_get completion url st)
      as [st1 [Hrun [_ [_ Hcases]]]].
    destruct (IH st1) as [st2 [Hrun2 Hacc2]].
    { intros u Hu. apply Hdown. now right. }
    exists st2. cbn [for_each]. unfold bind at 1. rewrite Hrun.
    split; [assumption|]. rewrite Hacc2.
    destruct Hcases as [[_ Hacc] | [content [Hok _]]]; [assumption|].
    destruct (Hdown url (or_introl eq_refl) (clock st)) as [e He]. congruence.
Qed.

(** When no URL can be fetched, and in particular on the empty list of
    URLs, a run ends with the [ValueError] of a metric given no sample:
    the three lists are empty and no file is written. *)
Theorem run_without_content urls :
  (forall url, In url urls -> forall t, exists e, http_get t url = inl e) ->
  let run := process_documentation http_get completion write_file urls initial in
  snd run = inl (ValueError (lit "Found array with 0 sample(s)"))
  /\ accumulators (fst run) = ([], [], [])
  /\ disk (fst run) = [].
Proof.
  intros Hdown.
  destruct (loop_of_failed_fetches urls initial Hdown) as [st1 [Hloop Hacc]].
  destruct (process_documentation_run http_get completion write_file urls initial)
    as [st1' [Hloop' [_ [Hdisk [_ Hend]]]]].
  change (fst (new_accumulators initial)) with initial in Hloop'.
  rewrite Hloop in Hloop'. injection Hloop' as <-.
  unfold accumulators in Hacc. cbn [initial original_scores improved_scores
                                     improved_docs] in Hacc.
  injection Hacc as Ho Hi Hd. rewrite Ho, Hi in Hend.
  cbn [mean_squared_error check_array length Nat.eqb negb] in Hend.
  rewrite Hend. cbn [fst snd]. unfold accumulators.
  rewrite Ho, Hi, Hd. auto.
Qed.

(** A successfully fetched URL whose improvement text has no word (an
    empty completion, or a response without completion field) makes the
    whole run raise: its NaN score stays in the list and the metric
    rejects it, so that no document at all is saved. *)
Theorem wordless_improvement_aborts_run before url after content r1 r2 :
  let st := fst (for_each before (process_url http_get completion) initial) in
  http_get (clock st) url = inr content ->
  completion (S (clock st)) (analyze_prompt content)
    [nl ++ nl] ANTHROPIC_MODEL 2000 = inr r1 ->
  completion (S (S (clock st))) (visuals_prompt content)
    [nl ++ nl] ANTHROPIC_MODEL 2000 = inr r2 ->
  compute_readability (completion_text r1) = NaN ->
  let run :=
    process_documentation http_get completion write_file
      (before ++ url :: after) initial in
  (exists detail, snd run = inl (ValueError detail))
  /\ In NaN (improved_scores (fst run))
  /\ disk (fst run) = [].
Proof.
  intros st Hget H1 H2 Hnan.
  destruct (process_urls_run http_get completion before initial)
    as [st0 [Hbefore _]].
  assert (Hst : st = st0) by (unfold st; now rewrite Hbefore). clearbody st.
  subst st0.
  destruct (process_url_success http_get completion url st Hget H1 H2)
    as [st1 [Hrun [Hi _]]].
  destruct (process_urls_bookkeeping http_get completion after st1)
    as [st2 [a [b [Hafter [_ [Hi2 _]]]]]].
  destruct (process_documentation_run http_get completion write_file
              (before ++ url :: after) initial)
    as [st2' [Hloop [_ [Hdisk [_ Hend]]]]].
  change (fst (new_accumulators initial)) with initial in Hloop.
  rewrite for_each_app, Hbefore in Hloop. cbn [for_each] in Hloop.
  unfold bind at 1 in Hloop. rewrite Hrun, Hafter in Hloop.
  injection Hloop as <-.
  assert (Hin : In NaN (improved_scores st2)).
  { rewrite Hi2, Hi, Hnan. apply in_or_app. left. apply in_or_app. right.
    now left. }
  destruct (mean_squared_error (original_scores st2) (improved_scores st2))
    as [e|mse] eqn:Hmse.
  - cbv zeta. rewrite Hend. cbn [fst snd].
    apply mean_squared_error_value_error in Hmse as [detail ->]. eauto.
  - exfalso.
    assert (Hret : exists m,
               mean_squared_error (original_scores st2) (improved_scores st2)
               = inr m) by eauto.
    apply mean_squared_error_returns_iff in Hret as [_ [_ [_ Hno]]]. auto.
Qed.

End Worlds.

Lemma run_without_failure_witness :
  length
    (improved_docs
       (fst (process_documentation Scenario.web_up Scenario.api_up
               Scenario.disk_ok [Scenario.url_a; Scenario.url_b] initial)))
  = length [Scenario.url_a; Scenario.url_b].
Proof.
  apply (@run_without_failure Scenario.web_up Scenario.api_up Scenario.disk_ok
           [Scenario.url_a; Scenario.url_b]).
  - intros t url. eexists. reflexivity.
  - intros t prompt stop model n. eexists. reflexivity.
Defined.

Lemma run_without_content_witness :
  snd (process_documentation Scenario.web_down Scenario.api_up Scenario.disk_ok
         [Scenario.url_a; Scenario.url_b] initial)
  = inl (ValueError (lit "Found array with 0 sample(s)")).
Proof.
  apply (@run_without_content Scenario.web_down Scenario.api_up Scenario.disk_ok
           [Scenario.url_a; Scenario.url_b]).
  intros url _ t. eexists. reflexivity.
Defined.

Lemma wordless_improvement_aborts_run_witness :
  disk
    (fst (process_documentation Scenario.web_up Scenario.api_no_completion
            Scenario.disk_ok ([] ++ Scenario.url_a :: [Scenario.url_b]) initial))
  = [].
Proof.
  apply (@wordless_improvement_aborts_run
           Scenario.web_up Scenario.api_no_completion Scenario.disk_ok
           [] Scenario.url_a [Scenario.url_b] Scenario.page None None);
    reflexivity.
Defined.

(** ** What the log says of a URL *)

(** The log lines of one iteration: a failed URL is reported with the
    very exception that made it fail, after the line of the helper that
    caught it first (the fetcher reports only a [RequestException]); a
    successful URL leaves the line of its fetch only. *)
Theorem url_failure_logged_with_its_cause
  (http_get : nat -> str -> exn + str)
  (completion : nat -> str -> list str -> str -> nat -> exn + option str)
  url st :
  (forall e,
      http_get (clock st) url = inl e ->
      log (fst (process_url http_get completion url st))
      = log st
          ++ match e with
             | RequestException _ => [FetchFailed url e]
             | _ => []
             end
          ++ [ProcessingError url e])
  /\ (forall content e,
         http_get (clock st) url = inr content ->
         completion (S (clock st)) (analyze_prompt content)
           [nl ++ nl] ANTHROPIC_MODEL 2000 = inl e ->
         log (fst (process_url http_get completion url st))
         = log st ++ [FetchedContent url; AnthropicError e; ProcessingError url e])
  /\ (forall content r1 e,
         http_get (clock st) url = inr content ->
         completion (S (clock st)) (analyze_prompt content)
           [nl ++ nl] ANTHROPIC_MODEL 2000 = inr r1 ->
         completion (S (S (clock st))) (visuals_prompt content)
           [nl ++ nl] ANTHROPIC_MODEL 2000 = inl e ->
         log (fst (process_url http_get completion url st))
         = log st ++ [FetchedContent url; AnthropicError e; ProcessingError url e])
  /\ (forall content r1 r2,
         http_get (clock st) url = inr content ->
         completion (S (clock st)) (analyze_prompt content)
           [nl ++ nl] ANTHROPIC_MODEL 2000 = inr r1 ->
         completion (S (S (clock st))) (visuals_prompt content)
           [nl ++ nl] ANTHROPIC_MODEL 2000 = inr r2 ->
         log (fst (process_url http_get completion url st))
         = log st ++ [FetchedContent url]).
Proof.
  destruct st as [c lg dk os ips ds]. run_pipeline.
  split; [|split; [|split]].
  - intros e He. rewrite He. destruct e; run_pipeline;
      now rewrite <- ?app_assoc.
  - intros content e Hc He. rewrite Hc. run_pipeline. rewrite He.
    run_pipeline. now rewrite <- !app_assoc.
  - intros content r1 e Hc H1 He. rewrite Hc. run_pipeline. rewrite H1.
    run_pipeline. rewrite He. run_pipeline. now rewrite <- !app_assoc.
  - intros content r1 r2 Hc H1 H2. rewrite Hc. run_pipeline. rewrite H1.
    run_pipeline. rewrite H2. reflexivity.
Qed.

Lemma url_failure_logged_with_its_cause_witness :
  log (fst (process_url Scenario.web_up Scenario.api_down Scenario.url_a initial))
  = log initial
      ++ [FetchedContent Scenario.url_a;
          AnthropicError (APIException (lit "overloaded"));
          ProcessingError Scenario.url_a (APIException (lit "overloaded"))].
Proof.
  apply (proj1 (proj2 (url_failure_logged_with_its_cause
                         Scenario.web_up Scenario.api_down
                         Scenario.url_a initial))
           Scenario.page);
    reflexivity.
Defined.
